(** * DBGU serial console of the AT91RM9200: driver and tiny formatter

    Shallow embedding of [src/task1/serial_demo.c] and proofs of its
    specification.

    - The debug unit is a memory-mapped peripheral: every access to one of
      its registers is a volatile load or store.  The state of the program
      is the chronological list of these accesses (the trace).  The value of
      a load comes from a device, a function of the accesses made so far;
      every run of the hardware is the run of some such function, so what
      holds for all devices holds for the hardware.
    - The busy-wait loops are run with a bound on the number of polls of
      each wait.  The outcome [Spin] says that the bound was reached while
      the loop was still polling, and carries the trace so far; a call
      terminates when some bound gives [Done].
    - A pointer to characters is the list of the bytes of its object from
      the pointer on, or [None] for the null pointer.  Reading past the
      object, an index outside an array, a variadic argument of the wrong
      type and a division by zero are undefined behaviour: [Fault].
    - [unsigned int] and the registers have 32 bits; the size of
      [unsigned long] is a parameter, as is the content of arrays that the
      code leaves uninitialised. *)

From Stdlib Require Import ZArith NArith Ascii String Bool Lia List.
From Equations Require Import Equations.
Import ListNotations.

Local Open Scope Z_scope.

(** ** Registers *)

Definition DBGU_BASE : Z := 0xFFFFF200.

Inductive reg : Type := CR | MR | SR | RHR | THR | BRGR.

Definition reg_offset (r : reg) : Z :=
  match r with
  | CR => 0x00
  | MR => 0x04
  | SR => 0x14
  | RHR => 0x18
  | THR => 0x1C
  | BRGR => 0x20
  end.

Definition reg_addr (r : reg) : Z := DBGU_BASE + reg_offset r.

Definition CR_RSTRX : Z := Z.shiftl 1 2.
Definition CR_RSTTX : Z := Z.shiftl 1 3.
Definition CR_RXEN : Z := Z.shiftl 1 4.
Definition CR_TXEN : Z := Z.shiftl 1 6.

Definition SR_RXRDY : Z := Z.shiftl 1 0.
Definition SR_TXRDY : Z := Z.shiftl 1 1.

Definition MR_PAR_NONE : Z := Z.shiftl 4 9.

Definition MCK_default : Z := 60000000.
Definition BAUD_default : Z := 115200.

(** Values of type [uint32_t] and [unsigned int]. *)
Definition u32 (z : Z) : Z := z mod 2 ^ 32.

(** ** Characters *)

Definition code (c : ascii) : Z := Z.of_N (N_of_ascii c).
Definition uchar (z : Z) : ascii := ascii_of_N (Z.to_N (z mod 256)).

Definition NUL : ascii := "000"%char.
Definition LF : ascii := "010"%char.
Definition CReturn : ascii := "013"%char.

(** A C string literal: its characters followed by the terminator. *)
Definition cstr (s : string) : list ascii := list_ascii_of_string s ++ [NUL].

(** ** Traces and devices *)

Inductive event : Type :=
| Rd (r : reg) (v : Z)
| Wr (r : reg) (v : Z).

Definition trace : Type := list event.

(** The device answers a load from the accesses made so far. *)
Definition device : Type := trace -> reg -> Z.

Inductive outcome (A : Type) : Type :=
| Done (a : A) (t : trace)
| Spin (t : trace)
| Fault.

Arguments Done {A} a t.
Arguments Spin {A} t.
Arguments Fault {A}.

Definition M (A : Type) : Type := trace -> outcome A.

Definition ret {A} (a : A) : M A := fun t => Done a t.

Definition bind {A B} (m : M A) (k : A -> M B) : M B :=
  fun t =>
    match m t with
    | Done a t' => k a t'
    | Spin t' => Spin t'
    | Fault => Fault
    end.

Definition fault {A} : M A := fun _ => Fault.

Notation "x <- m ;; k" := (bind m (fun x => k))
  (at level 61, m at next level, right associativity).
Notation "m ;; k" := (bind m (fun _ => k))
  (at level 61, right associativity).

(** The bytes stored to the transmit holding register, oldest first. *)
Fixpoint sent (t : trace) : list Z :=
  match t with
  | [] => []
  | Wr THR v :: t' => v :: sent t'
  | _ :: t' => sent t'
  end.

(** The stores of a trace, oldest first. *)
Fixpoint writes (t : trace) : list (reg * Z) :=
  match t with
  | [] => []
  | Wr r v :: t' => (r, v) :: writes t'
  | Rd _ _ :: t' => writes t'
  end.

(** What a terminal receives for a sequence of characters given to
    [dbgu_putc]: a carriage return goes out before every line feed. *)
Fixpoint crlf (l : list ascii) : list Z :=
  match l with
  | [] => []
  | c :: l' =>
      (if Ascii.eqb c LF then [code CReturn; code c] else [code c]) ++ crlf l'
  end.

(** Every access to a data register comes right after a load of the status
    register that showed the matching ready bit. *)
Fixpoint guarded (prev : option event) (t : trace) : bool :=
  match t with
  | [] => true
  | e :: t' =>
      match e with
      | Wr THR _ =>
          match prev with
          | Some (Rd SR s) => Z.testbit s 1
          | _ => false
          end
      | Rd RHR _ =>
          match prev with
          | Some (Rd SR s) => Z.testbit s 0
          | _ => false
          end
      | _ => true
      end && guarded (Some e) t'
  end.

(** ** Arrays of characters with checked indices

    An index outside the array is undefined behaviour: [None]. *)

Definition load (a : list ascii) (i : Z) : option ascii :=
  if i <? 0 then None else nth_error a (Z.to_nat i).

Definition store (a : list ascii) (i : Z) (c : ascii) : option (list ascii) :=
  if (0 <=? i) && (i <? Z.of_nat (length a))
  then Some (firstn (Z.to_nat i) a ++ c :: skipn (S (Z.to_nat i)) a)
  else None.

(** The digit table of [utoa_hex], a string literal. *)
Definition d : list ascii := cstr "0123456789abcdef".

(** The characters of the string held in a buffer: those before the first
    terminator. *)
Fixpoint c_string (m : list ascii) : list ascii :=
  match m with
  | [] => []
  | c :: m' => if Ascii.eqb c NUL then [] else c :: c_string m'
  end.

(** Whether a buffer holds a terminator at all. *)
Fixpoint terminated (m : list ascii) : bool :=
  match m with
  | [] => false
  | c :: m' => Ascii.eqb c NUL || terminated m'
  end.

(** ** The two loops of [utoa_hex] *)

(** [while(v){ tmp[i++] = d[v & 0xFu]; v >>= 4; }] *)
Equations? digits_loop (v : N) (i : Z) (tmp : list ascii)
  : option (Z * list ascii) by wf (N.size_nat v) lt :=
  digits_loop v i tmp with N.eq_dec v 0 := {
    | left _ => Some (i, tmp)
    | right _ with load d (Z.of_N (N.land v 15)) := {
        | None => None
        | Some c with store tmp i c := {
            | None => None
            | Some tmp' => digits_loop (N.shiftr v 4) (i + 1) tmp' } } }.
Proof.
  assert (Hhalf : forall w, N.size_nat (N.div2 w) = Nat.pred (N.size_nat w))
    by (intros [|[q|q|]]; reflexivity).
  rewrite !Hhalf.
  destruct v as [|q]; [congruence|].
  destruct q; simpl; lia.
Qed.

(** [for(j=0;j<i;++j) buf[j] = tmp[i-1-j];] *)
Equations? reverse_loop (i j : Z) (tmp buf : list ascii)
  : option (list ascii) by wf (Z.to_nat (i - j)) lt :=
  reverse_loop i j tmp buf with Z_lt_dec j i := {
    | right _ => Some buf
    | left _ with load tmp (i - 1 - j) := {
        | None => None
        | Some c with store buf j c := {
            | None => None
            | Some buf' => reverse_loop i (j + 1) tmp buf' } } }.
Proof. lia. Qed.

(** ** Reading a number written in hexadecimal *)

Definition hex_value (c : ascii) : option N :=
  let n := N_of_ascii c in
  if (48 <=? n)%N && (n <=? 57)%N then Some (n - 48)%N
  else if (97 <=? n)%N && (n <=? 102)%N then Some (n - 87)%N
  else if (65 <=? n)%N && (n <=? 70)%N then Some (n - 55)%N
  else None.

Fixpoint parse_hex_from (acc : N) (s : list ascii) : option N :=
  match s with
  | [] => Some acc
  | c :: s' =>
      match hex_value c with
      | Some x => parse_hex_from (16 * acc + x)%N s'
      | None => None
      end
  end.

Definition parse_hex (s : list ascii) : option N :=
  match s with
  | [] => None
  | _ => parse_hex_from 0%N s
  end.

(** ** Arguments of the variadic formatter *)

Inductive arg : Type :=
| ArgInt (z : Z)
| ArgStr (s : option (list ascii))
| ArgUInt (v : N)
| ArgPtr (a : N).

(** ** Hexadecimal digit strings *)

Definition digit_of (x : N) : ascii := nth (N.to_nat x) d NUL.

(** The digits of [v], least significant first, at most [k] of them. *)
Fixpoint lsd_digits (k : nat) (v : N) : list ascii :=
  match k with
  | O => []
  | S k' =>
      if (v =? 0)%N then []
      else digit_of (N.land v 15) :: lsd_digits k' (N.shiftr v 4)
  end.

Definition hex_digits (v : N) : list ascii :=
  if (v =? 0)%N then ["0"%char]
  else rev (lsd_digits (S (N.to_nat (N.log2 v))) v).

Definition lower_hex (c : ascii) : bool :=
  existsb (Ascii.eqb c) (list_ascii_of_string "0123456789abcdef").

(** [ds] is the shortest lowercase hexadecimal numeral of [v]. *)
Definition minimal_hex (v : N) (ds : list ascii) : Prop :=
  forallb lower_hex ds = true /\
  parse_hex ds = Some v /\
  (v = 0%N -> ds = ["0"%char]) /\
  (v <> 0%N -> hd NUL ds <> "0"%char).

Definition trace_of {A} (o : outcome A) : option trace :=
  match o with
  | Done _ t => Some t
  | Spin t => Some t
  | Fault => None
  end.

Definition sent_of {A} (o : outcome A) : option (list Z) :=
  option_map sent (trace_of o).

(** ** Example devices *)

(** Both ready bits are always set; the receive register holds 0x141. *)
Definition hw_ready : device :=
  fun _ r => match r with SR => 3 | RHR => 0x141 | _ => 0 end.

(** No ready bit is ever set. *)
Definition hw_dead : device := fun _ _ => 0.

Fixpoint polls_since_access (rt : trace) : nat :=
  match rt with
  | Rd SR _ :: rt' => S (polls_since_access rt')
  | _ => O
  end.

(** The transmitter is busy for [k] polls after every other access, and at
    the start. *)
Definition hw_toggle (k : nat) : device :=
  fun t r =>
    match r with
    | SR => if Nat.leb k (polls_since_access (rev t)) then 2 else 0
    | _ => 0
    end.

(** Stale stack contents for the example runs. *)
Definition stale : nat -> ascii := fun _ => "#"%char.

Section Dbgu.

Variable hw : device.

(** [sizeof(unsigned long)], in bytes. *)
Variable sizeof_ulong : nat.

(** The bytes found in an automatic array that was not initialised. *)
Variable uninit : nat -> ascii.

(** *** Register access *)

Definition rd (r : reg) : M Z :=
  fun t => let v := u32 (hw t r) in Done v (t ++ [Rd r v]).

Definition wr (r : reg) (v : Z) : M unit :=
  fun t => Done tt (t ++ [Wr r (u32 v)]).

(** Unsigned division; dividing by zero is undefined. *)
Definition udiv (a b : Z) : M Z :=
  if b =? 0 then fault else ret (a / b).

(** *** dbgu_init

    [MCK] and [BAUD] are the values of the two macros, constants of type
    unsigned int as the defaults [60000000u] and [115200u] are: the
    definition is for values from 0 to 2^32 - 1, and the expression is
    evaluated in that type. *)

Definition dbgu_init (MCK BAUD : Z) : M unit :=
  wr CR (Z.lor CR_RSTRX CR_RSTTX) ;;
  wr MR MR_PAR_NONE ;;
  q <- udiv (u32 MCK) (u32 (16 * u32 BAUD)) ;;
  wr BRGR q ;;
  wr CR (Z.lor CR_RXEN CR_TXEN).

(** *** Busy waiting: [while(!(DBGU_SR & mask)){}] *)

Fixpoint wait_sr (mask : Z) (fuel : nat) : M unit :=
  match fuel with
  | O => fun t => Spin t
  | S fuel' =>
      s <- rd SR ;;
      if Z.land s mask =? 0 then wait_sr mask fuel' else ret tt
  end.

(** *** dbgu_putc *)

Definition dbgu_putc (fuel : nat) (c : ascii) : M unit :=
  (if Ascii.eqb c LF
   then wait_sr SR_TXRDY fuel ;; wr THR (code CReturn)
   else ret tt) ;;
  wait_sr SR_TXRDY fuel ;;
  wr THR (code c).

(** *** dbgu_getc *)

Definition dbgu_getc (fuel : nat) : M ascii :=
  wait_sr SR_RXRDY fuel ;;
  v <- rd RHR ;;
  ret (uchar v).

(** *** dbgu_puts

    A pointer to characters is [None] when null, and otherwise the bytes
    of the object from the pointer on; reading past them is undefined. *)

Fixpoint puts_loop (fuel : nat) (s : list ascii) : M unit :=
  match s with
  | [] => fault
  | c :: s' =>
      if Ascii.eqb c NUL then ret tt
      else dbgu_putc fuel c ;; puts_loop fuel s'
  end.

Definition dbgu_puts (fuel : nat) (s : option (list ascii)) : M unit :=
  match s with
  | None => ret tt
  | Some m => puts_loop fuel m
  end.

(** The calls of [dbgu_putc] on the characters of a list, in order. *)
Fixpoint putcs (fuel : nat) (l : list ascii) : M unit :=
  match l with
  | [] => ret tt
  | c :: l' => dbgu_putc fuel c ;; putcs fuel l'
  end.

(** *** utoa_hex *)

Definition ulong (n : N) : N := (n mod 2 ^ (8 * N.of_nat sizeof_ulong))%N.

Definition auto_array (n : nat) : list ascii := map uninit (seq 0 n).

Definition utoa_hex (v : N) (buf : list ascii) : option (list ascii) :=
  if (v =? 0)%N then
    match store buf 0 "0"%char with
    | Some buf1 => store buf1 1 NUL
    | None => None
    end
  else
    match digits_loop v 0 (auto_array (2 * sizeof_ulong)) with
    | Some (i, tmp) =>
        match reverse_loop i 0 tmp buf with
        | Some buf' => store buf' i NUL
        | None => None
        end
    | None => None
    end.

(** *** tiny_printf *)

Fixpoint printf_loop (fuel : nat) (p : list ascii) (ap : list arg) : M unit :=
  match p with
  | [] => fault
  | c :: p1 =>
      if Ascii.eqb c NUL then ret tt
      else if negb (Ascii.eqb c "%"%char) then
        dbgu_putc fuel c ;; printf_loop fuel p1 ap
      else
        match p1 with
        | [] => fault
        | c1 :: p2 =>
            if Ascii.eqb c1 NUL then dbgu_putc fuel "%"%char
            else if Ascii.eqb c1 "%"%char then
              dbgu_putc fuel "%"%char ;; printf_loop fuel p2 ap
            else if Ascii.eqb c1 "c"%char then
              match ap with
              | ArgInt z :: ap' =>
                  dbgu_putc fuel (uchar z) ;; printf_loop fuel p2 ap'
              | _ => fault
              end
            else if Ascii.eqb c1 "s"%char then
              match ap with
              | ArgStr s :: ap' =>
                  dbgu_puts fuel
                    (match s with
                     | None => Some (cstr "(null)")
                     | Some _ => s
                     end) ;;
                  printf_loop fuel p2 ap'
              | _ => fault
              end
            else if Ascii.eqb c1 "x"%char then
              match ap with
              | ArgUInt v :: ap' =>
                  match utoa_hex (ulong (v mod 2 ^ 32)) (auto_array 9) with
                  | Some b => dbgu_puts fuel (Some b) ;; printf_loop fuel p2 ap'
                  | None => fault
                  end
              | _ => fault
              end
            else if Ascii.eqb c1 "p"%char then
              match ap with
              | ArgPtr a :: ap' =>
                  dbgu_puts fuel (Some (cstr "0x")) ;;
                  match
                    utoa_hex (ulong a) (auto_array (2 * sizeof_ulong + 1))
                  with
                  | Some b => dbgu_puts fuel (Some b) ;; printf_loop fuel p2 ap'
                  | None => fault
                  end
              | _ => fault
              end
            else
              dbgu_putc fuel "%"%char ;;
              dbgu_putc fuel c1 ;;
              printf_loop fuel p2 ap
        end
  end.

Definition tiny_printf (fuel : nat) (fmt : list ascii) (ap : list arg) : M Z :=
  printf_loop fuel fmt ap ;; ret 0.

(** *** What the polls of the status register see *)

(** The trace after [n] more polls. *)
Fixpoint polled (t : trace) (n : nat) : trace :=
  match n with
  | O => t
  | S n' => polled (t ++ [Rd SR (u32 (hw t SR))]) n'
  end.

(** The value that poll number [n] from [t] reads, counting from 0. *)
Definition sr_at (t : trace) (n : nat) : Z := u32 (hw (polled t n) SR).

Definition ready (bit : Z) (t : trace) (n : nat) : bool :=
  Z.testbit (sr_at t n) bit.

(** Poll [n] is the first one that sees the bit. *)
Definition first_ready (bit : Z) (t : trace) (n : nat) : bool :=
  ready bit t n && forallb (fun k => negb (ready bit t k)) (seq 0 n).

(** Whenever the program starts polling, the transmitter gets ready. *)
Definition tx_live : Prop := forall t, exists n, ready 1 t n = true.

(** [run] hands the characters of [l] to [dbgu_putc], in order, and
    returns 0. *)
Definition emits (run : nat -> M Z) (l : list ascii) : Prop :=
  forall fuel t, run fuel t = (putcs fuel l ;; ret 0) t.

(** Whenever [run] returns it has returned 0 and stored exactly the bytes
    [bs] to the transmit holding register; it never goes wrong; and it
    does return when the transmitter keeps getting ready. *)
Definition transmits (run : nat -> M Z) (bs : list Z) : Prop :=
  (forall fuel t r t',
      run fuel t = Done r t' -> r = 0 /\ sent t' = sent t ++ bs) /\
  (forall fuel t, run fuel t <> Fault) /\
  (tx_live -> forall t, exists fuel t', run fuel t = Done 0 t').

(** *** The characters of a whole call of tiny_printf

    The characters that [tiny_printf] hands to [dbgu_putc] for a format and
    an argument list, by the same scan as [printf_loop]; [None] where the
    call reads past the format, takes an argument that is missing or of
    another type, or prints a string without terminator. *)

Fixpoint render (p : list ascii) (ap : list arg) : option (list ascii) :=
  match p with
  | [] => None
  | c :: p1 =>
      if Ascii.eqb c NUL then Some []
      else if negb (Ascii.eqb c "%"%char) then
        option_map (cons c) (render p1 ap)
      else
        match p1 with
        | [] => None
        | c1 :: p2 =>
            if Ascii.eqb c1 NUL then Some ["%"%char]
            else if Ascii.eqb c1 "%"%char then
              option_map (cons "%"%char) (render p2 ap)
            else if Ascii.eqb c1 "c"%char then
              match ap with
              | ArgInt z :: ap' => option_map (cons (uchar z)) (render p2 ap')
              | _ => None
              end
            else if Ascii.eqb c1 "s"%char then
              match ap with
              | ArgStr None :: ap' =>
                  option_map (app (list_ascii_of_string "(null)"))
                             (render p2 ap')
              | ArgStr (Some m) :: ap' =>
                  if terminated m
                  then option_map (app (c_string m)) (render p2 ap')
                  else None
              | _ => None
              end
            else if Ascii.eqb c1 "x"%char then
              match ap with
              | ArgUInt v :: ap' =>
                  option_map (app (hex_digits (v mod 2 ^ 32)))
                             (render p2 ap')
              | _ => None
              end
            else if Ascii.eqb c1 "p"%char then
              match ap with
              | ArgPtr a :: ap' =>
                  option_map
                    (app ("0"%char :: "x"%char :: hex_digits (ulong a)))
                    (render p2 ap')
              | _ => None
              end
            else
              option_map (fun l => "%"%char :: c1 :: l) (render p2 ap)
        end
  end.

(** *** Which registers a computation touches *)

(** The accesses of the transmit side: polls of the status register and
    stores to the transmit holding register. *)
Definition tx_event (e : event) : bool :=
  match e with
  | Rd SR _ | Wr THR _ => true
  | _ => false
  end.

(** The accesses of both data paths: the receive holding register may be
    loaded as well. *)
Definition io_event (e : event) : bool :=
  match e with
  | Rd SR _ | Rd RHR _ | Wr THR _ => true
  | _ => false
  end.

(** Whatever [m] adds to the trace consists of accesses in [ok], and each
    data access in it comes right after a ready poll. *)
Definition confined {A} (ok : event -> bool) (m : M A) : Prop :=
  forall t t',
    trace_of (m t) = Some t' ->
    exists seg, t' = t ++ seg /\ forallb ok seg = true /\
                guarded None seg = true.

Definition no_fault {A} (m : M A) : Prop := forall t, m t <> Fault.

Definition never_done {A} (m : M A) : Prop := forall t a t', m t <> Done a t'.

(** *** main *)

Definition DQUOTE : ascii := "034"%char.

(** ["Ready\r\n"] *)
Definition banner : list ascii :=
  list_ascii_of_string "Ready" ++ [CReturn; LF; NUL].

(** ["Received character: '%c'\r\n"] *)
Definition fmt_received : list ascii :=
  list_ascii_of_string "Received character: '%c'" ++ [CReturn; LF; NUL].

(** The format of the second call, with its two double quotes. *)
Definition fmt_all : list ascii :=
  list_ascii_of_string "%%c='%c'  %%s=" ++ [DQUOTE] ++
  list_ascii_of_string "%s" ++ [DQUOTE] ++
  list_ascii_of_string "  %%x=%x  %%p=%p" ++ [CReturn; LF; NUL].

(** The body of [for(;;)], run [iters] times; the loop has no exit, so the
    bound on the iterations ends in [Spin]. *)
Fixpoint main_loop (fuel iters : nat) : M Z :=
  match iters with
  | O => fun t => Spin t
  | S iters' =>
      c <- dbgu_getc fuel ;;
      tiny_printf fuel fmt_received [ArgInt (code c)] ;;
      tiny_printf fuel fmt_all
        [ArgInt (code c); ArgStr (Some [c; NUL]);
         ArgUInt (N_of_ascii c); ArgPtr (N_of_ascii c)] ;;
      main_loop fuel iters'
  end.

Definition main (MCK BAUD : Z) (fuel iters : nat) : M Z :=
  dbgu_init MCK BAUD ;;
  dbgu_puts fuel (Some banner) ;;
  main_loop fuel iters.

(** What one turn of the loop prints for the received character [c]. *)
Definition echo (c : ascii) : list ascii :=
  list_ascii_of_string "Received character: '" ++ [c] ++
  ["'"%char; CReturn; LF] ++
  list_ascii_of_string "%c='" ++ [c] ++
  list_ascii_of_string "'  %s=" ++ [DQUOTE] ++
  (if Ascii.eqb c NUL then [] else [c]) ++ [DQUOTE] ++
  list_ascii_of_string "  %x=" ++ hex_digits (N_of_ascii c) ++
  list_ascii_of_string "  %p=0x" ++ hex_digits (N_of_ascii c) ++
  [CReturn; LF].

(** The number of hexadecimal digits of [v]. *)
Definition ndigits (v : N) : nat :=
  if (v =? 0)%N then 1%nat else S (N.to_nat (N.log2 v / 4)).

(** ** The monad *)

Lemma bind_done {A B} (m : M A) (k : A -> M B) t b t' :
  bind m k t = Done b t' <->
  exists a t1, m t = Done a t1 /\ k a t1 = Done b t'.
Proof.
  unfold bind. split.
  - destruct (m t) as [a t1| |]; try discriminate. eauto.
  - intros (a & t1 & -> & H). exact H.
Qed.

Lemma bind_assoc {A B C} (m : M A) (k : A -> M B) (h : B -> M C) t :
  bind (bind m k) h t = bind m (fun a => bind (k a) h) t.
Proof. unfold bind. destruct (m t); reflexivity. Qed.

Lemma bind_ext {A B} (m : M A) (k k' : A -> M B) t :
  (forall a t1, k a t1 = k' a t1) -> bind m k t = bind m k' t.
Proof. intros H. unfold bind. destruct (m t); auto. Qed.

Lemma sent_app t1 t2 : sent (t1 ++ t2) = sent t1 ++ sent t2.
Proof.
  induction t1 as [|e t1 IH]; simpl; [reflexivity|].
  destruct e as [r v|r v]; [exact IH|].
  destruct r; simpl; rewrite ?IH; reflexivity.
Qed.

Lemma writes_app t1 t2 : writes (t1 ++ t2) = writes t1 ++ writes t2.
Proof.
  induction t1 as [|e t1 IH]; simpl; [reflexivity|].
  destruct e; simpl; rewrite IH; reflexivity.
Qed.

(** ** Status bits *)

Lemma land_bit_eq0 s b :
  0 <= b -> (Z.land s (Z.shiftl 1 b) =? 0) = negb (Z.testbit s b).
Proof.
  intros Hb. rewrite Z.shiftl_1_l.
  assert (E : Z.land s (2 ^ b) = if Z.testbit s b then 2 ^ b else 0).
  { apply Z.bits_inj'. intros n Hn.
    rewrite Z.land_spec, Z.pow2_bits_eqb by lia.
    destruct (Z.eqb_spec b n) as [->|Hne].
    - destruct (Z.testbit s n) eqn:E; simpl.
      + rewrite Z.pow2_bits_true by lia. reflexivity.
      + rewrite Z.bits_0. reflexivity.
    - rewrite andb_false_r.
      destruct (Z.testbit s b).
      + rewrite Z.pow2_bits_false by lia. reflexivity.
      + rewrite Z.bits_0. reflexivity. }
  rewrite E. destruct (Z.testbit s b); simpl.
  - apply Z.eqb_neq. assert (0 < 2 ^ b) by (apply Z.pow_pos_nonneg; lia). lia.
  - reflexivity.
Qed.

(** ** Polling *)

Lemma polled_end t n : polled t (S n) = polled t n ++ [Rd SR (sr_at t n)].
Proof.
  revert t. induction n as [|n IH]; intros t; [reflexivity|].
  change (polled t (S (S n)))
    with (polled (t ++ [Rd SR (u32 (hw t SR))]) (S n)).
  rewrite IH. reflexivity.
Qed.

Lemma polled_only_reads t n :
  exists seg, polled t n = t ++ seg /\ sent seg = [] /\ writes seg = [] /\
              length seg = n.
Proof.
  induction n as [|n (seg & E & Hs & Hw & Hl)].
  - exists []. rewrite app_nil_r. auto.
  - exists (seg ++ [Rd SR (sr_at t n)]).
    rewrite polled_end, E, app_assoc, sent_app, writes_app, Hs, Hw.
    rewrite length_app, Hl. simpl. repeat split; auto. lia.
Qed.

Lemma sent_polled t n : sent (polled t n) = sent t.
Proof.
  destruct (polled_only_reads t n) as (seg & -> & Hs & _).
  rewrite sent_app, Hs, app_nil_r. reflexivity.
Qed.

Lemma writes_polled t n : writes (polled t n) = writes t.
Proof.
  destruct (polled_only_reads t n) as (seg & -> & _ & Hw & _).
  rewrite writes_app, Hw, app_nil_r. reflexivity.
Qed.

Lemma first_ready_spec bit t n :
  first_ready bit t n = true <->
  ready bit t n = true /\ forall k, (k < n)%nat -> ready bit t k = false.
Proof.
  unfold first_ready. rewrite andb_true_iff, forallb_forall.
  split; intros [H1 H2]; split; auto.
  - intros k Hk. apply negb_true_iff, H2, in_seq. lia.
  - intros k Hk. apply negb_true_iff, H2. apply in_seq in Hk. lia.
Qed.

Lemma first_ready_unique bit t n m :
  first_ready bit t n = true -> first_ready bit t m = true -> n = m.
Proof.
  rewrite !first_ready_spec. intros [Hn Hn'] [Hm Hm'].
  destruct (Nat.lt_trichotomy n m) as [H|[H|H]]; auto.
  - rewrite (Hm' n H) in Hn. discriminate.
  - rewrite (Hn' m H) in Hm. discriminate.
Qed.

(** A first ready poll below the bound contradicts a bound without any. *)
Ltac ready_clash :=
  match goal with
  | Hf : first_ready ?b ?t ?n = true,
    Hall : forall k, (k < _)%nat -> ready ?b ?t k = false |- _ =>
      apply first_ready_spec in Hf; destruct Hf as [Hf _];
      rewrite Hall in Hf by assumption; discriminate
  end.

Lemma wait_sr_step mask fuel t :
  wait_sr mask (S fuel) t =
  if Z.land (sr_at t 0) mask =? 0
  then wait_sr mask fuel (polled t 1)
  else Done tt (polled t 1).
Proof.
  simpl. unfold bind, rd, sr_at. simpl.
  destruct (Z.land (u32 (hw t SR)) mask =? 0); reflexivity.
Qed.

(** The loop either sees the bit at its first set poll, or is still
    polling when the bound is reached. *)
Lemma wait_sr_cases bit fuel t :
  0 <= bit ->
  (exists n, (n < fuel)%nat /\ first_ready bit t n = true /\
             wait_sr (Z.shiftl 1 bit) fuel t = Done tt (polled t (S n))) \/
  ((forall k, (k < fuel)%nat -> ready bit t k = false) /\
   wait_sr (Z.shiftl 1 bit) fuel t = Spin (polled t fuel)).
Proof.
  intros Hb. revert t. induction fuel as [|fuel IH]; intros t.
  - right. split; [intros k Hk; lia | reflexivity].
  - rewrite wait_sr_step, land_bit_eq0 by assumption.
    destruct (Z.testbit (sr_at t 0) bit) eqn:E; simpl.
    + left. exists O. split; [lia|]. split; [|reflexivity].
      apply first_ready_spec. split; [exact E | intros k Hk; lia].
    + destruct (IH (polled t 1)) as [(n & Hn & Hf & Hw)|[Hall Hw]].
      * left. exists (S n). split; [lia|]. split; [|exact Hw].
        apply first_ready_spec in Hf. destruct Hf as [Hr Hlt].
        apply first_ready_spec. split; [exact Hr|].
        intros [|k] Hk; [exact E | apply (Hlt k); lia].
      * right. split; [|exact Hw].
        intros [|k] Hk; [exact E | apply (Hall k); lia].
Qed.

Lemma wait_sr_done bit fuel t t' :
  0 <= bit ->
  wait_sr (Z.shiftl 1 bit) fuel t = Done tt t' <->
  exists n, (n < fuel)%nat /\ first_ready bit t n = true /\
            t' = polled t (S n).
Proof.
  intros Hb.
  destruct (wait_sr_cases bit fuel t Hb) as [(n & Hn & Hf & Hw)|[Hall Hw]];
    rewrite Hw; split.
  - intros [= <-]. eauto.
  - intros (m & _ & Hm & ->).
    rewrite (first_ready_unique _ _ _ _ Hm Hf). reflexivity.
  - discriminate.
  - intros (m & Hm & Hf & _). ready_clash.
Qed.

Lemma wait_sr_spin bit fuel t :
  0 <= bit ->
  (forall k, (k < fuel)%nat -> ready bit t k = false) ->
  wait_sr (Z.shiftl 1 bit) fuel t = Spin (polled t fuel).
Proof.
  intros Hb Hall.
  destruct (wait_sr_cases bit fuel t Hb) as [(n & Hn & Hf & _)|[_ Hw]];
    [|exact Hw].
  ready_clash.
Qed.

Lemma wait_sr_no_fault mask fuel t : wait_sr mask fuel t <> Fault.
Proof.
  revert t. induction fuel as [|fuel IH]; intros t; [discriminate|].
  rewrite wait_sr_step.
  destruct (Z.land (sr_at t 0) mask =? 0); [apply IH | discriminate].
Qed.

(** A set bit at some poll ends the loop, given polls enough. *)
Lemma wait_sr_ready bit t n :
  0 <= bit -> ready bit t n = true ->
  exists m, (m <= n)%nat /\ first_ready bit t m = true /\
    forall fuel, (n < fuel)%nat ->
      wait_sr (Z.shiftl 1 bit) fuel t = Done tt (polled t (S m)).
Proof.
  intros Hb Hr.
  destruct (wait_sr_cases bit (S n) t Hb) as [(m & Hm & Hf & Hw)|[Hall _]].
  - exists m. split; [lia|]. split; [exact Hf|].
    intros fuel Hfuel. apply wait_sr_done; [assumption|].
    exists m. split; [lia|]. auto.
  - rewrite (Hall n) in Hr by lia. discriminate.
Qed.

(** ** Characters as register values *)

Lemma code_range c : 0 <= code c < 256.
Proof.
  unfold code. pose proof (N_ascii_bounded c). lia.
Qed.

Lemma u32_code c : u32 (code c) = code c.
Proof.
  unfold u32. pose proof (code_range c). apply Z.mod_small. lia.
Qed.

Lemma code_uchar z : code (uchar z) = z mod 256.
Proof.
  unfold code, uchar.
  assert (0 <= z mod 256 < 256) by (apply Z.mod_pos_bound; lia).
  rewrite N_ascii_embedding by lia. lia.
Qed.

Lemma code_inj c c' : code c = code c' -> c = c'.
Proof.
  unfold code. intros H.
  rewrite <- (ascii_N_embedding c), <- (ascii_N_embedding c').
  f_equal. lia.
Qed.

(** ** dbgu_putc *)

Lemma dbgu_putc_plain fuel c t :
  Ascii.eqb c LF = false ->
  dbgu_putc fuel c t = (wait_sr SR_TXRDY fuel ;; wr THR (code c)) t.
Proof. intros H. unfold dbgu_putc. rewrite H. reflexivity. Qed.

Lemma dbgu_putc_newline fuel t :
  dbgu_putc fuel LF t =
  (wait_sr SR_TXRDY fuel ;; wr THR (code CReturn) ;;
   wait_sr SR_TXRDY fuel ;; wr THR (code LF)) t.
Proof.
  unfold dbgu_putc. rewrite Ascii.eqb_refl. unfold bind.
  destruct (wait_sr SR_TXRDY fuel t); reflexivity.
Qed.

Lemma putc_plain_cases fuel c t :
  Ascii.eqb c LF = false ->
  (exists n, (n < fuel)%nat /\ first_ready 1 t n = true /\
     dbgu_putc fuel c t = Done tt (polled t (S n) ++ [Wr THR (code c)])) \/
  ((forall k, (k < fuel)%nat -> ready 1 t k = false) /\
   dbgu_putc fuel c t = Spin (polled t fuel)).
Proof.
  intros Hc. rewrite (dbgu_putc_plain _ _ _ Hc). unfold bind, SR_TXRDY.
  destruct (wait_sr_cases 1 fuel t) as [(n & Hn & Hf & Hw)|[Hall Hw]];
    [lia| |]; rewrite Hw.
  - left. exists n. unfold wr. rewrite u32_code. auto.
  - right. auto.
Qed.

Lemma putc_newline_cases fuel t :
  (exists n1, (n1 < fuel)%nat /\ first_ready 1 t n1 = true /\
     let t1 := polled t (S n1) ++ [Wr THR 13] in
     ((exists n2, (n2 < fuel)%nat /\ first_ready 1 t1 n2 = true /\
         dbgu_putc fuel LF t = Done tt (polled t1 (S n2) ++ [Wr THR 10])) \/
      ((forall k, (k < fuel)%nat -> ready 1 t1 k = false) /\
       dbgu_putc fuel LF t = Spin (polled t1 fuel)))) \/
  ((forall k, (k < fuel)%nat -> ready 1 t k = false) /\
   dbgu_putc fuel LF t = Spin (polled t fuel)).
Proof.
  assert (E : dbgu_putc fuel LF t =
              match wait_sr (Z.shiftl 1 1) fuel t with
              | Done _ t1 =>
                  match wait_sr (Z.shiftl 1 1) fuel (t1 ++ [Wr THR 13]) with
                  | Done _ t2 => Done tt (t2 ++ [Wr THR 10])
                  | Spin t2 => Spin t2
                  | Fault => Fault
                  end
              | Spin t1 => Spin t1
              | Fault => Fault
              end).
  { rewrite dbgu_putc_newline. unfold bind, wr. rewrite !u32_code.
    reflexivity. }
  rewrite E. clear E.
  destruct (wait_sr_cases 1 fuel t) as [(n1 & Hn1 & Hf1 & Hw1)|[Hall Hw]];
    [lia| |]; [rewrite Hw1 | rewrite Hw].
  - left. exists n1. split; [exact Hn1|]. split; [exact Hf1|]. cbn zeta.
    destruct (wait_sr_cases 1 fuel (polled t (S n1) ++ [Wr THR 13]))
      as [(n2 & Hn2 & Hf2 & Hw2)|[Hall2 Hw2]]; [lia| |]; rewrite Hw2.
    + left. exists n2. repeat split; assumption.
    + right. split; [assumption | reflexivity].
  - right. split; [assumption | reflexivity].
Qed.

Lemma dbgu_putc_no_fault fuel c t : dbgu_putc fuel c t <> Fault.
Proof.
  destruct (Ascii.eqb c LF) eqn:Hc.
  - apply Ascii.eqb_eq in Hc. subst c.
    destruct (putc_newline_cases fuel t)
      as [(n1 & _ & _ & [(n2 & _ & _ & E)|[_ E]])|[_ E]];
      rewrite E; discriminate.
  - destruct (putc_plain_cases fuel c t Hc) as [(n & _ & _ & E)|[_ E]];
      rewrite E; discriminate.
Qed.

Lemma putc_plain_done fuel c t t' :
  Ascii.eqb c LF = false ->
  dbgu_putc fuel c t = Done tt t' <->
  exists n, (n < fuel)%nat /\ first_ready 1 t n = true /\
            t' = polled t (S n) ++ [Wr THR (code c)].
Proof.
  intros Hc.
  destruct (putc_plain_cases fuel c t Hc) as [(n & Hn & Hf & E)|[Hall E]];
    rewrite E; split.
  - intros [= <-]. eauto.
  - intros (m & _ & Hm & ->).
    rewrite (first_ready_unique _ _ _ _ Hm Hf). reflexivity.
  - discriminate.
  - intros (m & Hm & Hf & _). ready_clash.
Qed.

Lemma putc_newline_done fuel t t' :
  dbgu_putc fuel LF t = Done tt t' <->
  exists n1 n2, (n1 < fuel)%nat /\ (n2 < fuel)%nat /\
    first_ready 1 t n1 = true /\
    first_ready 1 (polled t (S n1) ++ [Wr THR 13]) n2 = true /\
    t' = polled (polled t (S n1) ++ [Wr THR 13]) (S n2) ++ [Wr THR 10].
Proof.
  destruct (putc_newline_cases fuel t)
    as [(n1 & Hn1 & Hf1 & [(n2 & Hn2 & Hf2 & E)|[Hall E]])|[Hall E]];
    rewrite E; split; try discriminate.
  - intros [= <-]. exists n1, n2. auto.
  - intros (m1 & m2 & _ & _ & Hm1 & Hm2 & ->).
    rewrite (first_ready_unique _ _ _ _ Hm1 Hf1) in *.
    rewrite (first_ready_unique _ _ _ _ Hm2 Hf2). reflexivity.
  - intros (m1 & m2 & _ & Hlt & Hm1 & Hm2 & _).
    rewrite (first_ready_unique _ _ _ _ Hm1 Hf1) in *. ready_clash.
  - intros (m1 & m2 & Hlt & _ & Hm1 & _). ready_clash.
Qed.

Lemma putc_sent fuel c t t' :
  dbgu_putc fuel c t = Done tt t' -> sent t' = sent t ++ crlf [c].
Proof.
  simpl. rewrite app_nil_r. destruct (Ascii.eqb c LF) eqn:Hc.
  - apply Ascii.eqb_eq in Hc. subst c.
    intros H. apply putc_newline_done in H.
    destruct H as (n1 & n2 & _ & _ & _ & _ & ->).
    rewrite sent_app, sent_polled, sent_app, sent_polled, <- app_assoc.
    reflexivity.
  - intros H. apply (putc_plain_done _ _ _ _ Hc) in H.
    destruct H as (n & _ & _ & ->).
    rewrite sent_app, sent_polled. reflexivity.
Qed.

Lemma putc_more fuel fuel' c t t' :
  (fuel <= fuel')%nat ->
  dbgu_putc fuel c t = Done tt t' -> dbgu_putc fuel' c t = Done tt t'.
Proof.
  intros Hle. destruct (Ascii.eqb c LF) eqn:Hc.
  - apply Ascii.eqb_eq in Hc. subst c. rewrite !putc_newline_done.
    intros (n1 & n2 & H1 & H2 & H). exists n1, n2.
    split; [lia|]. split; [lia|]. exact H.
  - rewrite !(putc_plain_done _ _ _ _ Hc).
    intros (n & H1 & H). exists n. split; [lia|]. exact H.
Qed.

Lemma putc_terminates c t :
  (exists fuel t', dbgu_putc fuel c t = Done tt t') <->
  if Ascii.eqb c LF
  then exists n1, first_ready 1 t n1 = true /\
         exists n2, ready 1 (polled t (S n1) ++ [Wr THR 13]) n2 = true
  else exists n, ready 1 t n = true.
Proof.
  destruct (Ascii.eqb c LF) eqn:Hc.
  - apply Ascii.eqb_eq in Hc. subst c. split.
    + intros (fuel & t' & H). apply putc_newline_done in H.
      destruct H as (n1 & n2 & _ & _ & H1 & H2 & _).
      exists n1. split; [exact H1|]. exists n2.
      apply first_ready_spec in H2. apply H2.
    + intros (n1 & H1 & n2 & H2).
      destruct (wait_sr_ready 1 _ n2 ltac:(lia) H2) as (m2 & Hm2 & Hf2 & _).
      exists (S (Nat.max n1 n2)). eexists. apply putc_newline_done.
      exists n1, m2. split; [lia|]. split; [lia|]. eauto.
  - split.
    + intros (fuel & t' & H). apply (putc_plain_done _ _ _ _ Hc) in H.
      destruct H as (n & _ & H & _). exists n.
      apply first_ready_spec in H. apply H.
    + intros (n & H).
      destruct (wait_sr_ready 1 _ n ltac:(lia) H) as (m & Hm & Hf & _).
      exists (S n). eexists. apply (putc_plain_done _ _ _ _ Hc).
      exists m. split; [lia|]. eauto.
Qed.

Lemma putc_live c t :
  tx_live -> exists fuel t', dbgu_putc fuel c t = Done tt t'.
Proof.
  intros Hlive. apply putc_terminates. destruct (Ascii.eqb c LF).
  - destruct (Hlive t) as (n & Hn).
    destruct (wait_sr_ready 1 _ n ltac:(lia) Hn) as (m & _ & Hf & _).
    exists m. split; [exact Hf|]. apply Hlive.
  - apply Hlive.
Qed.

(** ** dbgu_getc *)

Lemma getc_cases fuel t :
  (exists n, (n < fuel)%nat /\ first_ready 0 t n = true /\
     let v := u32 (hw (polled t (S n)) RHR) in
     dbgu_getc fuel t = Done (uchar v) (polled t (S n) ++ [Rd RHR v])) \/
  ((forall k, (k < fuel)%nat -> ready 0 t k = false) /\
   dbgu_getc fuel t = Spin (polled t fuel)).
Proof.
  unfold dbgu_getc, bind, SR_RXRDY.
  destruct (wait_sr_cases 0 fuel t) as [(n & Hn & Hf & Hw)|[Hall Hw]];
    [lia| |]; rewrite Hw.
  - left. exists n. repeat split; assumption.
  - right. split; [assumption | reflexivity].
Qed.

Lemma getc_done fuel t c t' :
  dbgu_getc fuel t = Done c t' <->
  exists n, (n < fuel)%nat /\ first_ready 0 t n = true /\
    t' = polled t (S n) ++ [Rd RHR (u32 (hw (polled t (S n)) RHR))] /\
    c = uchar (u32 (hw (polled t (S n)) RHR)).
Proof.
  destruct (getc_cases fuel t) as [(n & Hn & Hf & E)|[Hall E]];
    cbn zeta in *; rewrite E; split.
  - intros [= <- <-]. exists n. auto.
  - intros (m & _ & Hm & -> & ->).
    rewrite (first_ready_unique _ _ _ _ Hm Hf). reflexivity.
  - discriminate.
  - intros (m & Hm & Hf & _). ready_clash.
Qed.

Lemma getc_terminates t :
  (exists fuel c t', dbgu_getc fuel t = Done c t') <->
  exists n, ready 0 t n = true.
Proof.
  split.
  - intros (fuel & c & t' & H). apply getc_done in H.
    destruct H as (n & _ & H & _). exists n.
    apply first_ready_spec in H. apply H.
  - intros (n & H).
    destruct (wait_sr_ready 0 _ n ltac:(lia) H) as (m & Hm & Hf & _).
    exists (S n). do 2 eexists. apply getc_done.
    exists m. split; [lia|]. eauto.
Qed.

(** ** Data registers are touched only after a ready poll *)

Lemma polled_seg t n :
  polled t n = t ++ map (Rd SR) (map (sr_at t) (seq 0 n)).
Proof.
  induction n as [|n IH].
  - simpl. rewrite app_nil_r. reflexivity.
  - rewrite polled_end, IH, seq_S, !map_app, <- app_assoc. reflexivity.
Qed.

Lemma guarded_polls prev vs : guarded prev (map (Rd SR) vs) = true.
Proof.
  revert prev. induction vs as [|v vs IH]; intros prev; [reflexivity|].
  simpl. apply IH.
Qed.

Lemma guarded_polls_then prev vs v rest :
  guarded prev (map (Rd SR) (vs ++ [v]) ++ rest) =
  guarded (Some (Rd SR v)) rest.
Proof.
  revert prev. induction vs as [|w vs IH]; intros prev; [reflexivity|].
  simpl. apply IH.
Qed.

Lemma polled_guard t n :
  exists seg, polled t n = t ++ seg /\ forall prev, guarded prev seg = true.
Proof.
  eexists. split; [apply polled_seg|]. intros prev. apply guarded_polls.
Qed.

Lemma polled_S_guard t n :
  exists seg, polled t (S n) = t ++ seg /\
    forall prev rest,
      guarded prev (seg ++ rest) = guarded (Some (Rd SR (sr_at t n))) rest.
Proof.
  exists (map (Rd SR) (map (sr_at t) (seq 0 n) ++ [sr_at t n])).
  split.
  - rewrite polled_seg, seq_S, !map_app. reflexivity.
  - intros prev rest. apply (guarded_polls_then prev _ (sr_at t n) rest).
Qed.

Lemma putc_guarded fuel c t :
  exists seg, trace_of (dbgu_putc fuel c t) = Some (t ++ seg) /\
              guarded None seg = true.
Proof.
  destruct (Ascii.eqb c LF) eqn:Hc.
  - apply Ascii.eqb_eq in Hc. subst c.
    destruct (putc_newline_cases fuel t)
      as [(n1 & _ & Hf1 & [(n2 & _ & Hf2 & E)|[_ E]])|[_ E]];
      rewrite E; cbn [trace_of];
      try (apply first_ready_spec in Hf1; destruct Hf1 as [Hr1 _]);
      try (apply first_ready_spec in Hf2; destruct Hf2 as [Hr2 _]).
    + destruct (polled_S_guard (polled t (S n1) ++ [Wr THR 13]) n2)
        as (s2 & E2 & G2).
      destruct (polled_S_guard t n1) as (s1 & E1 & G1).
      exists (s1 ++ [Wr THR 13] ++ s2 ++ [Wr THR 10]). split.
      * rewrite E2, E1, <- !app_assoc. reflexivity.
      * rewrite G1. cbn [guarded app]. rewrite G2. cbn [guarded].
        unfold ready in Hr1, Hr2. rewrite Hr1, Hr2. reflexivity.
    + destruct (polled_guard (polled t (S n1) ++ [Wr THR 13]) fuel)
        as (s2 & E2 & G2).
      destruct (polled_S_guard t n1) as (s1 & E1 & G1).
      exists (s1 ++ [Wr THR 13] ++ s2). split.
      * rewrite E2, E1, <- !app_assoc. reflexivity.
      * rewrite G1. cbn [guarded app]. rewrite G2.
        unfold ready in Hr1. rewrite Hr1. reflexivity.
    + destruct (polled_guard t fuel) as (s1 & E1 & G1).
      exists s1. rewrite E1. auto.
  - destruct (putc_plain_cases fuel c t Hc) as [(n & _ & Hf & E)|[_ E]];
      rewrite E; cbn [trace_of].
    + apply first_ready_spec in Hf. destruct Hf as [Hr _].
      destruct (polled_S_guard t n) as (s1 & E1 & G1).
      exists (s1 ++ [Wr THR (code c)]). split.
      * rewrite E1, <- !app_assoc. reflexivity.
      * rewrite G1. cbn [guarded].
        unfold ready in Hr. rewrite Hr. reflexivity.
    + destruct (polled_guard t fuel) as (s1 & E1 & G1).
      exists s1. rewrite E1. auto.
Qed.

Lemma getc_guarded fuel t :
  exists seg, trace_of (dbgu_getc fuel t) = Some (t ++ seg) /\
              guarded None seg = true.
Proof.
  destruct (getc_cases fuel t) as [(n & _ & Hf & E)|[_ E]];
    cbn zeta in *; rewrite E; cbn [trace_of].
  - apply first_ready_spec in Hf. destruct Hf as [Hr _].
    destruct (polled_S_guard t n) as (s1 & E1 & G1).
    exists (s1 ++ [Rd RHR (u32 (hw (polled t (S n)) RHR))]). split.
    + rewrite E1 at 1. rewrite <- !app_assoc. reflexivity.
    + rewrite G1. cbn [guarded].
      unfold ready in Hr. rewrite Hr. reflexivity.
  - destruct (polled_guard t fuel) as (s1 & E1 & G1).
    exists s1. rewrite E1. auto.
Qed.

(** ** Sequences of characters: putcs and dbgu_puts *)

Lemma crlf_cons c l : crlf (c :: l) = crlf [c] ++ crlf l.
Proof. simpl. rewrite app_nil_r. reflexivity. Qed.

Lemma crlf_app a b : crlf (a ++ b) = crlf a ++ crlf b.
Proof.
  induction a as [|c a IH]; [reflexivity|].
  simpl. rewrite IH, app_assoc. reflexivity.
Qed.

Lemma putcs_sent fuel l t t' :
  putcs fuel l t = Done tt t' -> sent t' = sent t ++ crlf l.
Proof.
  revert t. induction l as [|c l IH]; intros t.
  - intros [= <-]. simpl. rewrite app_nil_r. reflexivity.
  - cbn [putcs]. intros H. apply bind_done in H.
    destruct H as ([] & t1 & H1 & H2).
    rewrite (crlf_cons c l), (IH _ H2), (putc_sent _ _ _ _ H1), app_assoc.
    reflexivity.
Qed.

Lemma putcs_more fuel fuel' l t t' :
  (fuel <= fuel')%nat ->
  putcs fuel l t = Done tt t' -> putcs fuel' l t = Done tt t'.
Proof.
  intros Hle. revert t. induction l as [|c l IH]; intros t; [auto|].
  cbn [putcs]. intros H. apply bind_done in H.
  destruct H as ([] & t1 & H1 & H2). apply bind_done.
  exists tt, t1. split; [apply (putc_more _ _ _ _ _ Hle H1) | auto].
Qed.

Lemma putcs_live l t :
  tx_live -> exists fuel t', putcs fuel l t = Done tt t'.
Proof.
  intros Hlive. revert t. induction l as [|c l IH]; intros t.
  - exists O, t. reflexivity.
  - destruct (putc_live c t Hlive) as (f1 & t1 & H1).
    destruct (IH t1) as (f2 & t2 & H2).
    exists (Nat.max f1 f2), t2. cbn [putcs]. apply bind_done.
    exists tt, t1. split.
    + apply (putc_more f1); [lia | exact H1].
    + apply (putcs_more f2); [lia | exact H2].
Qed.

Lemma putcs_no_fault fuel l t : putcs fuel l t <> Fault.
Proof.
  revert t. induction l as [|c l IH]; intros t; [discriminate|].
  cbn [putcs]. unfold bind.
  pose proof (dbgu_putc_no_fault fuel c t) as Hc.
  destruct (dbgu_putc fuel c t); [apply IH | discriminate | congruence].
Qed.

Lemma putcs_app fuel a b t :
  putcs fuel (a ++ b) t = (putcs fuel a ;; putcs fuel b) t.
Proof.
  revert t. induction a as [|c a IH]; intros t; [reflexivity|].
  cbn [putcs app]. rewrite bind_assoc. apply bind_ext. intros _ t1. apply IH.
Qed.

Lemma puts_loop_putcs fuel m t :
  terminated m = true -> puts_loop fuel m t = putcs fuel (c_string m) t.
Proof.
  revert t. induction m as [|c m IH]; intros t; [discriminate|].
  cbn [terminated puts_loop c_string].
  destruct (Ascii.eqb c NUL); [reflexivity|].
  cbn [orb putcs]. intros H. apply bind_ext. intros _ t1. apply IH, H.
Qed.

Lemma puts_loop_unterminated fuel m t t' :
  terminated m = false -> puts_loop fuel m t <> Done tt t'.
Proof.
  revert t. induction m as [|c m IH]; intros t; [discriminate|].
  cbn [terminated puts_loop].
  destruct (Ascii.eqb c NUL); [discriminate|].
  cbn [orb]. intros H E. apply bind_done in E.
  destruct E as ([] & t1 & _ & E). exact (IH _ H E).
Qed.

Lemma c_string_literal body rest :
  forallb (fun c => negb (Ascii.eqb c NUL)) body = true ->
  terminated (body ++ NUL :: rest) = true /\
  c_string (body ++ NUL :: rest) = body.
Proof.
  induction body as [|c body IH]; [auto|].
  cbn [forallb app terminated c_string]. intros H.
  apply andb_true_iff in H. destruct H as [Hc H].
  apply negb_true_iff in Hc. rewrite Hc. cbn [orb].
  destruct (IH H) as [-> ->]. auto.
Qed.

(** ** Behaviours that emit a fixed sequence of characters *)

Lemma emits_sent run l fuel t r t' :
  emits run l -> run fuel t = Done r t' ->
  r = 0 /\ sent t' = sent t ++ crlf l.
Proof.
  intros He H. rewrite He in H. apply bind_done in H.
  destruct H as ([] & t1 & H1 & [= <- <-]).
  split; [reflexivity | apply (putcs_sent _ _ _ _ H1)].
Qed.

Lemma emits_live run l t :
  emits run l -> tx_live -> exists fuel t', run fuel t = Done 0 t'.
Proof.
  intros He Hlive. destruct (putcs_live l t Hlive) as (fuel & t' & H).
  exists fuel, t'. rewrite He. apply bind_done. exists tt, t'. auto.
Qed.

Lemma emits_no_fault run l fuel t : emits run l -> run fuel t <> Fault.
Proof.
  intros He. rewrite He. unfold bind.
  pose proof (putcs_no_fault fuel l t) as Hn.
  destruct (putcs fuel l t); [discriminate | discriminate | congruence].
Qed.

(** ** Checked arrays *)

Lemma load_nat a k : load a (Z.of_nat k) = nth_error a k.
Proof.
  unfold load. destruct (Z.ltb_spec (Z.of_nat k) 0); [lia|].
  rewrite Nat2Z.id. reflexivity.
Qed.

Lemma store_at pre x rest c :
  store (pre ++ x :: rest) (Z.of_nat (length pre)) c = Some (pre ++ c :: rest).
Proof.
  unfold store. rewrite length_app. cbn [length].
  destruct (Z.leb_spec 0 (Z.of_nat (length pre))); [|lia].
  destruct (Z.ltb_spec (Z.of_nat (length pre))
              (Z.of_nat (length pre + S (length rest)))); [|lia].
  cbn [andb]. rewrite Nat2Z.id.
  rewrite firstn_app, firstn_all, Nat.sub_diag. cbn [firstn].
  rewrite app_nil_r.
  rewrite skipn_app, skipn_all2 by lia.
  replace (S (length pre) - length pre)%nat with 1%nat by lia.
  reflexivity.
Qed.

Lemma skipn_nth_error {A} (l : list A) j c :
  nth_error l j = Some c -> skipn j l = c :: skipn (S j) l.
Proof.
  revert j. induction l as [|x l IH]; intros [|j]; simpl;
    try discriminate.
  - intros [= ->]. reflexivity.
  - intros H. apply (IH _ H).
Qed.

(** ** Hexadecimal digits *)

Lemma small_N_cases (P : N -> bool) :
  forallb P (map N.of_nat (seq 0 16)) = true ->
  forall x, (x < 16)%N -> P x = true.
Proof.
  intros H x Hx. rewrite forallb_forall in H. apply H.
  rewrite <- (N2Nat.id x). apply in_map, in_seq. lia.
Qed.

Lemma digit_facts x :
  (x < 16)%N ->
  load d (Z.of_N (N.land x 15)) = Some (digit_of x) /\
  hex_value (digit_of x) = Some x /\
  lower_hex (digit_of x) = true /\
  Ascii.eqb (digit_of x) NUL = false /\
  Ascii.eqb (digit_of x) LF = false /\
  Ascii.eqb (digit_of x) "0"%char = (x =? 0)%N.
Proof.
  intros Hx.
  pose (P := fun x : N =>
    match load d (Z.of_N (N.land x 15)) with
    | Some c => Ascii.eqb c (digit_of x)
    | None => false
    end &&
    match hex_value (digit_of x) with
    | Some y => (y =? x)%N
    | None => false
    end &&
    lower_hex (digit_of x) &&
    negb (Ascii.eqb (digit_of x) NUL) &&
    negb (Ascii.eqb (digit_of x) LF) &&
    Bool.eqb (Ascii.eqb (digit_of x) "0"%char) (x =? 0)%N).
  assert (HP : P x = true) by (apply small_N_cases; [reflexivity | exact Hx]).
  unfold P in HP. clear P.
  repeat (apply andb_true_iff in HP; destruct HP as [HP ?]).
  repeat split.
  - destruct (load d (Z.of_N (N.land x 15))); [|discriminate].
    apply Ascii.eqb_eq in HP. congruence.
  - destruct (hex_value (digit_of x)); [|discriminate].
    match goal with H : (_ =? _)%N = true |- _ => apply N.eqb_eq in H end.
    congruence.
  - assumption.
  - apply negb_true_iff. assumption.
  - apply negb_true_iff. assumption.
  - apply Bool.eqb_prop. assumption.
Qed.

Lemma nibble v :
  (N.land v 15 < 16)%N /\ (v = 16 * N.shiftr v 4 + N.land v 15)%N.
Proof.
  change 15%N with (N.ones 4).
  rewrite N.land_ones, N.shiftr_div_pow2. change (2 ^ 4)%N with 16%N.
  split; [apply N.mod_lt; lia | apply N.div_mod; lia].
Qed.

Lemma land_nibble v : N.land (N.land v 15) 15 = N.land v 15.
Proof.
  rewrite <- N.land_assoc. change (N.land 15 15) with 15%N. reflexivity.
Qed.

Lemma pow16_S k : (16 ^ N.of_nat (S k) = 16 * 16 ^ N.of_nat k)%N.
Proof. rewrite Nat2N.inj_succ, N.pow_succ_r'. reflexivity. Qed.

Lemma shiftr4_lt k v :
  (v < 16 ^ N.of_nat (S k))%N -> (N.shiftr v 4 < 16 ^ N.of_nat k)%N.
Proof.
  rewrite pow16_S, N.shiftr_div_pow2. change (2 ^ 4)%N with 16%N.
  intros H. apply N.Div0.div_lt_upper_bound. exact H.
Qed.

Lemma lsd_digits_zero k : lsd_digits k 0 = [].
Proof. destruct k; reflexivity. Qed.

Lemma lsd_digits_step k v :
  v <> 0%N ->
  lsd_digits (S k) v = digit_of (N.land v 15) :: lsd_digits k (N.shiftr v 4).
Proof.
  intros H. cbn [lsd_digits]. apply N.eqb_neq in H. rewrite H. reflexivity.
Qed.

Lemma lsd_digits_length k k' v :
  (v < 16 ^ N.of_nat k')%N -> (length (lsd_digits k v) <= k')%nat.
Proof.
  revert k' v. induction k as [|k IH]; intros k' v Hv; [simpl; lia|].
  destruct (N.eq_dec v 0) as [->|Hne]; [simpl; lia|].
  rewrite (lsd_digits_step _ _ Hne). cbn [length].
  destruct k' as [|k'].
  - change (16 ^ N.of_nat 0)%N with 1%N in Hv. lia.
  - apply le_n_S, IH, shiftr4_lt, Hv.
Qed.

Lemma lsd_digits_fuel k k' v :
  (v < 16 ^ N.of_nat k)%N -> (v < 16 ^ N.of_nat k')%N ->
  lsd_digits k v = lsd_digits k' v.
Proof.
  revert k' v. induction k as [|k IH]; intros k' v Hk Hk'.
  - change (16 ^ N.of_nat 0)%N with 1%N in Hk.
    replace v with 0%N by lia. rewrite !lsd_digits_zero. reflexivity.
  - destruct (N.eq_dec v 0) as [->|Hne].
    + rewrite !lsd_digits_zero. reflexivity.
    + destruct k' as [|k'].
      * change (16 ^ N.of_nat 0)%N with 1%N in Hk'. lia.
      * rewrite !(lsd_digits_step _ _ Hne). f_equal.
        apply IH; apply shiftr4_lt; assumption.
Qed.

Lemma lsd_digits_chars k v :
  forallb (fun c => lower_hex c && negb (Ascii.eqb c NUL)
                    && negb (Ascii.eqb c LF)) (lsd_digits k v) = true.
Proof.
  revert v. induction k as [|k IH]; intros v; [reflexivity|].
  destruct (N.eq_dec v 0) as [->|Hne]; [reflexivity|].
  rewrite (lsd_digits_step _ _ Hne). cbn [forallb]. rewrite IH.
  destruct (digit_facts (N.land v 15)) as (_ & _ & -> & -> & -> & _);
    [apply nibble | reflexivity].
Qed.

Lemma parse_hex_from_app acc a b :
  parse_hex_from acc (a ++ b) =
  match parse_hex_from acc a with
  | Some x => parse_hex_from x b
  | None => None
  end.
Proof.
  revert acc. induction a as [|c a IH]; intros acc; [reflexivity|].
  cbn [app parse_hex_from]. destruct (hex_value c); [apply IH | reflexivity].
Qed.

Lemma lsd_digits_value k v :
  (v < 16 ^ N.of_nat k)%N ->
  parse_hex_from 0 (rev (lsd_digits k v)) = Some v.
Proof.
  revert v. induction k as [|k IH]; intros v Hv.
  - change (16 ^ N.of_nat 0)%N with 1%N in Hv.
    replace v with 0%N by lia. reflexivity.
  - destruct (N.eq_dec v 0) as [->|Hne]; [reflexivity|].
    rewrite (lsd_digits_step _ _ Hne). cbn [rev].
    rewrite parse_hex_from_app, (IH _ (shiftr4_lt _ _ Hv)).
    cbn [parse_hex_from].
    destruct (digit_facts (N.land v 15)) as (_ & -> & _); [apply nibble|].
    f_equal. symmetry. apply nibble.
Qed.

Lemma lsd_digits_leading k v :
  v <> 0%N -> (v < 16 ^ N.of_nat k)%N ->
  exists c ds, rev (lsd_digits k v) = c :: ds /\ c <> "0"%char.
Proof.
  revert v. induction k as [|k IH]; intros v Hne Hv.
  - change (16 ^ N.of_nat 0)%N with 1%N in Hv. lia.
  - rewrite (lsd_digits_step _ _ Hne). cbn [rev].
    destruct (N.eq_dec (N.shiftr v 4) 0) as [Hz|Hnz].
    + rewrite Hz, lsd_digits_zero. cbn [rev app].
      exists (digit_of (N.land v 15)), []. split; [reflexivity|].
      destruct (digit_facts (N.land v 15)) as (_ & _ & _ & _ & _ & E);
        [apply nibble|].
      intros Hc. rewrite Hc in E. cbn in E. symmetry in E.
      apply N.eqb_eq in E. pose proof (nibble v) as [_ Hv']. lia.
    + destruct (IH _ Hnz (shiftr4_lt _ _ Hv)) as (c & ds & -> & Hc).
      exists c, (ds ++ [digit_of (N.land v 15)]). auto.
Qed.

Lemma log2_fuel v :
  v <> 0%N -> (v < 16 ^ N.of_nat (S (N.to_nat (N.log2 v))))%N.
Proof.
  intros Hne. destruct (N.log2_spec v) as [_ Hlt]; [lia|].
  eapply N.lt_le_trans; [exact Hlt|].
  rewrite Nat2N.inj_succ, N2Nat.id.
  change 16%N with (2 ^ 4)%N. rewrite <- N.pow_mul_r.
  apply N.pow_le_mono_r; lia.
Qed.

Lemma hex_digits_nonzero k v :
  v <> 0%N -> (v < 16 ^ N.of_nat k)%N ->
  hex_digits v = rev (lsd_digits k v).
Proof.
  intros Hne Hv. unfold hex_digits. apply N.eqb_neq in Hne as Hb.
  rewrite Hb. f_equal. apply lsd_digits_fuel; [apply log2_fuel|]; assumption.
Qed.

Lemma hex_digits_length k v :
  (0 < k)%nat -> (v < 16 ^ N.of_nat k)%N -> (length (hex_digits v) <= k)%nat.
Proof.
  intros Hk Hv. destruct (N.eq_dec v 0) as [->|Hne]; [simpl; lia|].
  rewrite (hex_digits_nonzero k v Hne Hv), length_rev.
  apply lsd_digits_length, Hv.
Qed.

Lemma hex_digits_chars v :
  forallb (fun c => lower_hex c && negb (Ascii.eqb c NUL)
                    && negb (Ascii.eqb c LF)) (hex_digits v) = true.
Proof.
  unfold hex_digits. destruct (v =? 0)%N; [reflexivity|].
  apply forallb_forall. intros c Hc. apply in_rev in Hc.
  pose proof (lsd_digits_chars (S (N.to_nat (N.log2 v))) v) as H.
  rewrite forallb_forall in H. apply H, Hc.
Qed.

Lemma hex_digits_minimal v : minimal_hex v (hex_digits v).
Proof.
  destruct (N.eq_dec v 0) as [->|Hne].
  - repeat split; try reflexivity. intros H. congruence.
  - pose proof (hex_digits_nonzero _ v Hne (log2_fuel v Hne)) as E.
    destruct (lsd_digits_leading _ v Hne (log2_fuel v Hne))
      as (c & ds & Hrev & Hc).
    repeat split.
    + apply forallb_forall. intros x Hx.
      pose proof (hex_digits_chars v) as H. rewrite forallb_forall in H.
      specialize (H x Hx).
      apply andb_true_iff in H. destruct H as [H _].
      apply andb_true_iff in H. apply H.
    + rewrite E. unfold parse_hex. rewrite Hrev, <- Hrev.
      apply lsd_digits_value, log2_fuel, Hne.
    + intros H. contradiction.
    + intros _. rewrite E, Hrev. exact Hc.
Qed.

(** ** The loops of utoa_hex *)

Lemma digits_loop_eq v i tmp :
  digits_loop v i tmp =
  if (v =? 0)%N then Some (i, tmp)
  else
    match load d (Z.of_N (N.land v 15)) with
    | None => None
    | Some c =>
        match store tmp i c with
        | None => None
        | Some tmp' => digits_loop (N.shiftr v 4) (i + 1) tmp'
        end
    end.
Proof.
  simp digits_loop. destruct (N.eq_dec v 0) as [->|Hne]; simpl.
  - reflexivity.
  - assert (Hb : (v =? 0)%N = false) by (apply N.eqb_neq; exact Hne).
    rewrite Hb.
    destruct (load d (Z.of_N (N.land v 15))); simpl; [|reflexivity].
    destruct (store tmp i a); reflexivity.
Qed.

Lemma reverse_loop_eq i j tmp buf :
  reverse_loop i j tmp buf =
  if j <? i then
    match load tmp (i - 1 - j) with
    | None => None
    | Some c =>
        match store buf j c with
        | None => None
        | Some buf' => reverse_loop i (j + 1) tmp buf'
        end
    end
  else Some buf.
Proof.
  simp reverse_loop. destruct (Z_lt_dec j i) as [Hlt|Hge]; simpl.
  - destruct (Z.ltb_spec j i); [|lia].
    destruct (load tmp (i - 1 - j)); simpl; [|reflexivity].
    destruct (store buf j a); reflexivity.
  - destruct (Z.ltb_spec j i); [lia | reflexivity].
Qed.

Lemma digits_loop_spec k v pre slots post :
  (v < 16 ^ N.of_nat k)%N -> length slots = k ->
  let ds := lsd_digits k v in
  digits_loop v (Z.of_nat (length pre)) (pre ++ slots ++ post) =
  Some (Z.of_nat (length pre + length ds),
        pre ++ ds ++ skipn (length ds) slots ++ post).
Proof.
  revert v pre slots. induction k as [|k IH]; intros v pre slots Hv Hlen;
    cbn zeta; rewrite digits_loop_eq.
  - change (16 ^ N.of_nat 0)%N with 1%N in Hv.
    replace v with 0%N by lia. simpl. rewrite Nat.add_0_r. reflexivity.
  - destruct (N.eq_dec v 0) as [->|Hne].
    + simpl. rewrite Nat.add_0_r. reflexivity.
    + apply N.eqb_neq in Hne as Hb. rewrite Hb.
      rewrite (lsd_digits_step _ _ Hne).
      destruct (digit_facts (N.land v 15)) as (E & _); [apply nibble|].
      rewrite land_nibble in E. rewrite E.
      destruct slots as [|x slots]; [discriminate|].
      cbn [app]. rewrite store_at.
      injection Hlen as Hlen.
      specialize (IH (N.shiftr v 4) (pre ++ [digit_of (N.land v 15)]) slots
                     (shiftr4_lt _ _ Hv) Hlen).
      cbn zeta in IH. rewrite length_app in IH. cbn [length] in IH.
      replace (Z.of_nat (length pre) + 1)
        with (Z.of_nat (length pre + 1)) by lia.
      rewrite <- app_assoc in IH. cbn [app] in IH. rewrite IH.
      cbn [length skipn]. rewrite <- app_assoc. cbn [app].
      do 2 f_equal. lia.
Qed.

Lemma reverse_loop_spec ds tmp_rest mid pre post :
  (length pre + length mid = length ds)%nat ->
  reverse_loop (Z.of_nat (length ds)) (Z.of_nat (length pre))
    (ds ++ tmp_rest) (pre ++ mid ++ post) =
  Some (pre ++ skipn (length pre) (rev ds) ++ post).
Proof.
  revert pre. induction mid as [|x mid IH]; intros pre Hlen;
    rewrite reverse_loop_eq.
  - cbn [length] in Hlen.
    destruct (Z.ltb_spec (Z.of_nat (length pre)) (Z.of_nat (length ds)));
      [lia|].
    rewrite (skipn_all2 (rev ds)) by (rewrite length_rev; lia).
    reflexivity.
  - cbn [length] in Hlen.
    destruct (Z.ltb_spec (Z.of_nat (length pre)) (Z.of_nat (length ds)));
      [|lia].
    replace (Z.of_nat (length ds) - 1 - Z.of_nat (length pre))
      with (Z.of_nat (length ds - S (length pre))) by lia.
    rewrite load_nat, nth_error_app1 by lia.
    assert (Hnth : nth_error (rev ds) (length pre) =
                   nth_error ds (length ds - S (length pre))).
    { rewrite nth_error_rev.
      destruct (Nat.ltb_spec (length pre) (length ds)); [reflexivity|lia]. }
    destruct (nth_error ds (length ds - S (length pre))) as [c|] eqn:Ec.
    + cbn [app]. rewrite store_at.
      specialize (IH (pre ++ [c])). rewrite length_app in IH.
      cbn [length] in IH.
      replace (Z.of_nat (length pre) + 1)
        with (Z.of_nat (length pre + 1)) by lia.
      rewrite <- app_assoc in IH. cbn [app] in IH.
      rewrite IH by lia.
      rewrite (skipn_nth_error _ _ _ Hnth), <- app_assoc. cbn [app].
      replace (length pre + 1)%nat with (S (length pre)) by lia.
      reflexivity.
    + apply nth_error_None in Ec. lia.
Qed.

Lemma pow2_bytes_nibbles n :
  (2 ^ (8 * N.of_nat n) = 16 ^ N.of_nat (2 * n))%N.
Proof.
  change 16%N with (2 ^ 4)%N. rewrite <- N.pow_mul_r. f_equal. lia.
Qed.

Lemma length_auto_array n : length (auto_array n) = n.
Proof. unfold auto_array. rewrite length_map, length_seq. reflexivity. Qed.

(** The buffer after [utoa_hex]: the digits, the terminator, and the
    bytes behind them, which are left alone. *)
Lemma utoa_hex_spec v buf :
  (v < 2 ^ (8 * N.of_nat sizeof_ulong))%N ->
  (length (hex_digits v) < length buf)%nat ->
  utoa_hex v buf =
  Some (hex_digits v ++ NUL :: skipn (S (length (hex_digits v))) buf).
Proof.
  rewrite pow2_bytes_nibbles. intros Hv Hbuf. unfold utoa_hex.
  destruct (N.eq_dec v 0) as [->|Hne].
  - change (hex_digits 0) with ["0"%char] in *.
    destruct buf as [|x [|y buf]]; cbn [length] in Hbuf; try lia.
    pose proof (store_at [] x (y :: buf) "0"%char) as E1.
    pose proof (store_at ["0"%char] y buf NUL) as E2.
    cbn [app length] in E1, E2.
    change (Z.of_nat 0) with 0 in E1. change (Z.of_nat 1) with 1 in E2.
    change (0 =? 0)%N with true. cbn iota. rewrite E1, E2. reflexivity.
  - apply N.eqb_neq in Hne as Hb. rewrite Hb.
    rewrite (hex_digits_nonzero _ v Hne Hv) in *.
    rewrite length_rev in Hbuf.
    pose proof (digits_loop_spec (2 * sizeof_ulong) v []
                  (auto_array (2 * sizeof_ulong)) [] Hv
                  (length_auto_array _)) as Hloop.
    cbn zeta in Hloop. cbn [app length Nat.add] in Hloop.
    rewrite !app_nil_r in Hloop.
    change (Z.of_nat 0) with 0 in Hloop. rewrite Hloop.
    set (ds := lsd_digits (2 * sizeof_ulong) v) in *.
    pose proof (reverse_loop_spec ds
                  (skipn (length ds) (auto_array (2 * sizeof_ulong)))
                  (firstn (length ds) buf) [] (skipn (length ds) buf)) as Hrev.
    cbn [app length Nat.add skipn] in Hrev.
    change (Z.of_nat 0) with 0 in Hrev.
    rewrite firstn_skipn in Hrev.
    rewrite Hrev by (rewrite length_firstn; apply Nat.min_l; lia).
    pose proof (length_skipn (length ds) buf) as Hs.
    destruct (skipn (length ds) buf) as [|y rest] eqn:Es.
    + cbn [length] in Hs. lia.
    + rewrite <- (length_rev ds) at 1. rewrite store_at, length_rev.
      do 2 f_equal.
      replace (S (length ds)) with (1 + length ds)%nat by lia.
      rewrite <- skipn_skipn, Es. reflexivity.
Qed.

(** ** Streaming the staged digits *)

Lemma hex_digits_no_nul v :
  forallb (fun c => negb (Ascii.eqb c NUL)) (hex_digits v) = true.
Proof.
  apply forallb_forall. intros c Hc.
  pose proof (hex_digits_chars v) as H. rewrite forallb_forall in H.
  specialize (H c Hc). apply andb_true_iff in H. destruct H as [H _].
  apply andb_true_iff in H. apply H.
Qed.

Lemma hex_digits_crlf v : crlf (hex_digits v) = map code (hex_digits v).
Proof.
  pose proof (hex_digits_chars v) as H.
  induction (hex_digits v) as [|c l IH]; [reflexivity|].
  cbn [forallb] in H. apply andb_true_iff in H. destruct H as [Hc H].
  apply andb_true_iff in Hc. destruct Hc as [_ Hc].
  apply negb_true_iff in Hc. cbn [crlf map]. rewrite Hc, (IH H).
  reflexivity.
Qed.

Lemma puts_hex fuel v rest t :
  puts_loop fuel (hex_digits v ++ NUL :: rest) t = putcs fuel (hex_digits v) t.
Proof.
  destruct (c_string_literal _ rest (hex_digits_no_nul v)) as [Ht Hc].
  rewrite (puts_loop_putcs _ _ _ Ht), Hc. reflexivity.
Qed.

Lemma ulong_uint v :
  (4 <= sizeof_ulong)%nat -> ulong (v mod 2 ^ 32) = (v mod 2 ^ 32)%N.
Proof.
  intros Hsz. unfold ulong. apply N.mod_small.
  eapply N.lt_le_trans; [apply N.mod_lt; lia|].
  apply N.pow_le_mono_r; lia.
Qed.

Lemma ulong_range a : (ulong a < 2 ^ (8 * N.of_nat sizeof_ulong))%N.
Proof. unfold ulong. apply N.mod_lt. apply N.pow_nonzero. lia. Qed.

Lemma utoa_hex_uint v :
  (4 <= sizeof_ulong)%nat ->
  let w := (v mod 2 ^ 32)%N in
  utoa_hex (ulong w) (auto_array 9) =
  Some (hex_digits w ++ NUL :: skipn (S (length (hex_digits w))) (auto_array 9))
  /\ (length (hex_digits w) <= 8)%nat.
Proof.
  intros Hsz w. unfold w. rewrite (ulong_uint v Hsz).
  assert (Hlen : (length (hex_digits (v mod 2 ^ 32)) <= 8)%nat).
  { apply hex_digits_length; [lia|].
    change (16 ^ N.of_nat 8)%N with (2 ^ 32)%N. apply N.mod_lt. lia. }
  split; [|exact Hlen].
  apply utoa_hex_spec.
  - rewrite <- (ulong_uint v Hsz). apply ulong_range.
  - rewrite length_auto_array. lia.
Qed.

Lemma utoa_hex_ptr a :
  (1 <= sizeof_ulong)%nat ->
  let w := ulong a in
  let buf := auto_array (2 * sizeof_ulong + 1) in
  utoa_hex w buf =
  Some (hex_digits w ++ NUL :: skipn (S (length (hex_digits w))) buf)
  /\ (length (hex_digits w) <= 2 * sizeof_ulong)%nat.
Proof.
  intros Hsz w buf.
  assert (Hlen : (length (hex_digits w) <= 2 * sizeof_ulong)%nat).
  { apply hex_digits_length; [lia|].
    rewrite <- pow2_bytes_nibbles. apply ulong_range. }
  split; [|exact Hlen].
  apply utoa_hex_spec; [apply ulong_range|].
  unfold buf. rewrite length_auto_array. lia.
Qed.

(** ** One step of the formatter for each directive *)

Lemma printf_loop_end fuel rest ap t :
  printf_loop fuel (NUL :: rest) ap t = Done tt t.
Proof. reflexivity. Qed.

Lemma printf_loop_ordinary fuel c rest ap t :
  Ascii.eqb c NUL = false -> Ascii.eqb c "%"%char = false ->
  printf_loop fuel (c :: rest) ap t =
  (dbgu_putc fuel c ;; printf_loop fuel rest ap) t.
Proof. intros H0 H1. cbn [printf_loop]. rewrite H0, H1. reflexivity. Qed.

Lemma printf_loop_percent fuel rest ap t :
  printf_loop fuel ("%"%char :: "%"%char :: rest) ap t =
  (dbgu_putc fuel "%"%char ;; printf_loop fuel rest ap) t.
Proof. reflexivity. Qed.

Lemma printf_loop_dangling fuel rest ap t :
  printf_loop fuel ("%"%char :: NUL :: rest) ap t = dbgu_putc fuel "%"%char t.
Proof. reflexivity. Qed.

Lemma printf_loop_unknown fuel c rest ap t :
  ~ In c (NUL :: list_ascii_of_string "%csxp") ->
  printf_loop fuel ("%"%char :: c :: rest) ap t =
  (dbgu_putc fuel "%"%char ;; dbgu_putc fuel c ;; printf_loop fuel rest ap) t.
Proof.
  intros H.
  assert (Hne : forall x, In x (NUL :: list_ascii_of_string "%csxp") ->
                          Ascii.eqb c x = false).
  { intros x Hx. apply Ascii.eqb_neq. intros ->. exact (H Hx). }
  cbn [printf_loop].
  change (Ascii.eqb "%" NUL) with false.
  change (Ascii.eqb "%" "%") with true. cbn [negb].
  rewrite (Hne NUL), (Hne "%"%char), (Hne "c"%char), (Hne "s"%char),
    (Hne "x"%char), (Hne "p"%char) by (simpl; tauto).
  reflexivity.
Qed.

Lemma printf_loop_c fuel z rest ap t :
  printf_loop fuel ("%"%char :: "c"%char :: rest) (ArgInt z :: ap) t =
  (dbgu_putc fuel (uchar z) ;; printf_loop fuel rest ap) t.
Proof. reflexivity. Qed.

Lemma printf_loop_s fuel s rest ap t :
  printf_loop fuel ("%"%char :: "s"%char :: rest) (ArgStr s :: ap) t =
  (dbgu_puts fuel (match s with
                   | None => Some (cstr "(null)")
                   | Some _ => s
                   end) ;;
   printf_loop fuel rest ap) t.
Proof. reflexivity. Qed.

Lemma printf_loop_x fuel v rest ap t :
  (4 <= sizeof_ulong)%nat ->
  printf_loop fuel ("%"%char :: "x"%char :: rest) (ArgUInt v :: ap) t =
  (putcs fuel (hex_digits (v mod 2 ^ 32)) ;; printf_loop fuel rest ap) t.
Proof.
  intros Hsz. destruct (utoa_hex_uint v Hsz) as [E _]. cbn zeta in E.
  change (printf_loop fuel ("%"%char :: "x"%char :: rest) (ArgUInt v :: ap) t)
    with (match utoa_hex (ulong (v mod 2 ^ 32)) (auto_array 9) with
          | Some b => dbgu_puts fuel (Some b) ;; printf_loop fuel rest ap
          | None => fault
          end t).
  rewrite E. unfold bind. cbn [dbgu_puts]. rewrite puts_hex. reflexivity.
Qed.

Lemma printf_loop_p fuel a rest ap t :
  (1 <= sizeof_ulong)%nat ->
  printf_loop fuel ("%"%char :: "p"%char :: rest) (ArgPtr a :: ap) t =
  (putcs fuel ("0"%char :: "x"%char :: hex_digits (ulong a)) ;;
   printf_loop fuel rest ap) t.
Proof.
  intros Hsz. destruct (utoa_hex_ptr a Hsz) as [E _]. cbn zeta in E.
  change (printf_loop fuel ("%"%char :: "p"%char :: rest) (ArgPtr a :: ap) t)
    with ((dbgu_puts fuel (Some (cstr "0x")) ;;
           match
             utoa_hex (ulong a) (auto_array (2 * sizeof_ulong + 1))
           with
           | Some b => dbgu_puts fuel (Some b) ;; printf_loop fuel rest ap
           | None => fault
           end) t).
  rewrite E.
  change (dbgu_puts fuel (Some (cstr "0x")))
    with (dbgu_putc fuel "0"%char ;; dbgu_putc fuel "x"%char ;; ret tt).
  cbn [putcs]. rewrite !bind_assoc. apply bind_ext. intros _ t1.
  rewrite !bind_assoc. apply bind_ext. intros _ t2.
  unfold bind at 1. unfold ret at 1.
  unfold bind. cbn [dbgu_puts]. rewrite puts_hex. reflexivity.
Qed.

(** ** What whole calls of tiny_printf emit *)

Lemma emits_loop fuel fmt ap l t :
  (forall t1, printf_loop fuel fmt ap t1 = putcs fuel l t1) ->
  tiny_printf fuel fmt ap t = (putcs fuel l ;; ret 0) t.
Proof. intros H. unfold tiny_printf, bind. rewrite H. reflexivity. Qed.

Lemma putcs_then_end fuel l rest ap t :
  (putcs fuel l ;; printf_loop fuel (NUL :: rest) ap) t = putcs fuel l t.
Proof.
  unfold bind. destruct (putcs fuel l t) as [[] t1| |]; reflexivity.
Qed.

Lemma emits_x v :
  (4 <= sizeof_ulong)%nat ->
  emits (fun fuel => tiny_printf fuel (cstr "%x") [ArgUInt v])
        (hex_digits (v mod 2 ^ 32)).
Proof.
  intros Hsz fuel t. apply emits_loop. intros t1.
  change (cstr "%x") with ["%"%char; "x"%char; NUL].
  rewrite (printf_loop_x _ _ _ _ _ Hsz). apply putcs_then_end.
Qed.

Lemma emits_p a :
  (1 <= sizeof_ulong)%nat ->
  emits (fun fuel => tiny_printf fuel (cstr "%p") [ArgPtr a])
        ("0"%char :: "x"%char :: hex_digits (ulong a)).
Proof.
  intros Hsz fuel t. apply emits_loop. intros t1.
  change (cstr "%p") with ["%"%char; "p"%char; NUL].
  rewrite (printf_loop_p _ _ _ _ _ Hsz). apply putcs_then_end.
Qed.

Lemma emits_s s :
  match s with Some m => terminated m = true | None => True end ->
  emits (fun fuel => tiny_printf fuel (cstr "%s") [ArgStr s])
        (match s with
         | Some m => c_string m
         | None => list_ascii_of_string "(null)"
         end).
Proof.
  intros Hs fuel t. apply emits_loop. intros t1.
  change (cstr "%s") with ["%"%char; "s"%char; NUL].
  rewrite printf_loop_s. destruct s as [m|].
  - cbn [dbgu_puts]. unfold bind. rewrite (puts_loop_putcs _ _ _ Hs).
    destruct (putcs fuel (c_string m) t1) as [[] t2| |]; reflexivity.
  - cbn [dbgu_puts]. unfold bind.
    rewrite (puts_loop_putcs _ (cstr "(null)")) by reflexivity.
    change (c_string (cstr "(null)")) with (list_ascii_of_string "(null)").
    destruct (putcs fuel (list_ascii_of_string "(null)") t1) as [[] t2| |];
      reflexivity.
Qed.

Lemma emits_plain body :
  forallb (fun c => negb (Ascii.eqb c NUL) && negb (Ascii.eqb c "%"%char))
          body = true ->
  forall fuel rest ap l t,
    (forall t1, printf_loop fuel rest ap t1 = putcs fuel l t1) ->
    printf_loop fuel (body ++ rest) ap t = putcs fuel (body ++ l) t.
Proof.
  intros Hbody fuel rest ap l. induction body as [|c body IH]; intros t H.
  - apply H.
  - cbn [forallb] in Hbody. apply andb_true_iff in Hbody.
    destruct Hbody as [Hc Hbody]. apply andb_true_iff in Hc.
    destruct Hc as [H0 H1]. apply negb_true_iff in H0, H1.
    cbn [app]. rewrite (printf_loop_ordinary _ _ _ _ _ H0 H1).
    cbn [putcs]. apply bind_ext. intros _ t1. apply (IH Hbody), H.
Qed.

Lemma emits_transmits run l : emits run l -> transmits run (crlf l).
Proof.
  intros He. split; [|split].
  - intros fuel t r t' H. apply (emits_sent run l fuel t r t' He H).
  - intros fuel t. apply (emits_no_fault run l fuel t He).
  - intros Hlive t. apply (emits_live run l t He Hlive).
Qed.

Lemma emits_literal body rest ap :
  forallb (fun c => negb (Ascii.eqb c NUL) && negb (Ascii.eqb c "%"%char))
          body = true ->
  emits (fun fuel => tiny_printf fuel (body ++ NUL :: rest) ap) body.
Proof.
  intros Hbody fuel t. apply emits_loop. intros t1.
  rewrite <- (app_nil_r body) at 2.
  apply (emits_plain body Hbody). intros t2. reflexivity.
Qed.


(** * The claims *)


(** C2.  For every unsigned long value [v], [utoa_hex] leaves in the
    buffer a string that reads back as [v] in hexadecimal; the string has
    no leading zero digit, except that it is the single digit 0 when [v]
    is 0.  The buffer has room for two digits per byte of an unsigned
    long and the terminator. *)
Theorem utoa_hex_round_trip v buf :
  (1 <= sizeof_ulong)%nat ->
  (v < 2 ^ (8 * N.of_nat sizeof_ulong))%N ->
  (2 * sizeof_ulong + 1 <= length buf)%nat ->
  exists buf',
    utoa_hex v buf = Some buf' /\
    parse_hex (c_string buf') = Some v /\
    (v = 0%N -> c_string buf' = ["0"%char]) /\
    (v <> 0%N -> hd NUL (c_string buf') <> "0"%char) /\
    forallb lower_hex (c_string buf') = true.
Proof.
  intros Hsz Hv Hbuf.
  assert (Hlen : (length (hex_digits v) <= 2 * sizeof_ulong)%nat).
  { apply hex_digits_length; [lia|]. rewrite <- pow2_bytes_nibbles.
    exact Hv. }
  eexists. split; [apply utoa_hex_spec; [exact Hv | lia]|].
  destruct (c_string_literal _ (skipn (S (length (hex_digits v))) buf)
              (hex_digits_no_nul v)) as [_ ->].
  destruct (hex_digits_minimal v) as (H1 & H2 & H3 & H4). auto.
Qed.

(** C3.  [dbgu_putc] of the newline character stores a carriage return
    to the transmit holding register and then the newline; each of the two
    stores comes after a busy-wait of its own that ended with the first
    poll showing TXRDY (bit 1 of the status register).  For every other
    character there is one such wait, then the one store of the
    character. *)
Theorem dbgu_putc_line_ending fuel c t t' :
  (c = LF ->
   (dbgu_putc fuel c t = Done tt t' <->
    exists n1 n2, (n1 < fuel)%nat /\ (n2 < fuel)%nat /\
      first_ready 1 t n1 = true /\
      first_ready 1 (polled t (S n1) ++ [Wr THR 13]) n2 = true /\
      t' = polled (polled t (S n1) ++ [Wr THR 13]) (S n2) ++ [Wr THR 10])) /\
  (c <> LF ->
   (dbgu_putc fuel c t = Done tt t' <->
    exists n, (n < fuel)%nat /\ first_ready 1 t n = true /\
      t' = polled t (S n) ++ [Wr THR (code c)])) /\
  (dbgu_putc fuel c t = Done tt t' ->
   sent t' = sent t ++ (if Ascii.eqb c LF then [13; 10] else [code c])).
Proof.
  split; [|split].
  - intros ->. apply putc_newline_done.
  - intros Hc. apply putc_plain_done. apply Ascii.eqb_neq. exact Hc.
  - intros H. rewrite (putc_sent _ _ _ _ H). cbn [crlf].
    rewrite app_nil_r. destruct (Ascii.eqb_spec c LF) as [->|]; reflexivity.
Qed.

(** C4.  In [tiny_printf], the directive %x takes one unsigned int
    argument and emits its shortest lowercase hexadecimal numeral, without
    a prefix; %p takes one address argument and emits the two characters
    0x followed by the numeral of the address, also for the address 0.
    The formats "%x" with 0, "%x" with 255 and "%p" with 0 send the bytes
    of "0", "ff" and "0x0". *)
Theorem tiny_printf_hex_directives :
  (4 <= sizeof_ulong)%nat ->
  (forall v, exists ds,
      minimal_hex (v mod 2 ^ 32) ds /\
      forall fuel rest ap t,
        printf_loop fuel ("%"%char :: "x"%char :: rest) (ArgUInt v :: ap) t =
        (putcs fuel ds ;; printf_loop fuel rest ap) t) /\
  (forall a, exists ds,
      minimal_hex (ulong a) ds /\
      forall fuel rest ap t,
        printf_loop fuel ("%"%char :: "p"%char :: rest) (ArgPtr a :: ap) t =
        (putcs fuel ("0"%char :: "x"%char :: ds) ;;
         printf_loop fuel rest ap) t) /\
  (emits (fun fuel => tiny_printf fuel (cstr "%x") [ArgUInt 0])
         (list_ascii_of_string "0") /\
   transmits (fun fuel => tiny_printf fuel (cstr "%x") [ArgUInt 0])
             (map code (list_ascii_of_string "0"))) /\
  (emits (fun fuel => tiny_printf fuel (cstr "%x") [ArgUInt 255])
         (list_ascii_of_string "ff") /\
   transmits (fun fuel => tiny_printf fuel (cstr "%x") [ArgUInt 255])
             (map code (list_ascii_of_string "ff"))) /\
  (emits (fun fuel => tiny_printf fuel (cstr "%p") [ArgPtr 0])
         (list_ascii_of_string "0x0") /\
   transmits (fun fuel => tiny_printf fuel (cstr "%p") [ArgPtr 0])
             (map code (list_ascii_of_string "0x0"))).
Proof.
  intros Hsz. split; [|split; [|split; [|split]]].
  - intros v. exists (hex_digits (v mod 2 ^ 32)).
    split; [apply hex_digits_minimal|].
    intros fuel rest ap t. apply printf_loop_x, Hsz.
  - intros a. exists (hex_digits (ulong a)).
    split; [apply hex_digits_minimal|].
    intros fuel rest ap t. apply printf_loop_p. lia.
  - pose proof (emits_x 0 Hsz) as He. split; [exact He|].
    apply (emits_transmits _ _ He).
  - pose proof (emits_x 255 Hsz) as He. split; [exact He|].
    apply (emits_transmits _ _ He).
  - assert (He : emits (fun fuel => tiny_printf fuel (cstr "%p") [ArgPtr 0])
                       (list_ascii_of_string "0x0")).
    { pose proof (emits_p 0 ltac:(lia)) as He.
      unfold ulong in He. rewrite N.Div0.mod_0_l in He. exact He. }
    split; [exact He|]. apply (emits_transmits _ _ He).
Qed.

(** C5.  In [tiny_printf] a percent sign that takes no argument is passed
    through and never refused: %% emits one percent sign; a percent sign
    right before the terminator emits one percent sign and ends the call,
    whatever lies behind the terminator; a percent sign before any
    character other than c, s, x, p emits the percent sign and then that
    character.  None of them touches the arguments.  The format "100%%"
    sends the four bytes of "100%", and "abc%" sends the bytes of
    "abc%". *)
Theorem tiny_printf_passthrough :
  (forall fuel rest ap t,
      printf_loop fuel ("%"%char :: "%"%char :: rest) ap t =
      (dbgu_putc fuel "%"%char ;; printf_loop fuel rest ap) t) /\
  (forall fuel rest ap t,
      printf_loop fuel ("%"%char :: NUL :: rest) ap t =
      dbgu_putc fuel "%"%char t) /\
  (forall fuel c rest ap t,
      ~ In c (NUL :: list_ascii_of_string "%csxp") ->
      printf_loop fuel ("%"%char :: c :: rest) ap t =
      (dbgu_putc fuel "%"%char ;; dbgu_putc fuel c ;;
       printf_loop fuel rest ap) t) /\
  (forall rest ap,
      emits (fun fuel =>
               tiny_printf fuel (list_ascii_of_string "100%%" ++ NUL :: rest) ap)
            (list_ascii_of_string "100%") /\
      transmits (fun fuel =>
               tiny_printf fuel (list_ascii_of_string "100%%" ++ NUL :: rest) ap)
            (map code (list_ascii_of_string "100%"))) /\
  (forall rest ap,
      emits (fun fuel =>
               tiny_printf fuel (list_ascii_of_string "abc%" ++ NUL :: rest) ap)
            (list_ascii_of_string "abc%") /\
      transmits (fun fuel =>
               tiny_printf fuel (list_ascii_of_string "abc%" ++ NUL :: rest) ap)
            (map code (list_ascii_of_string "abc%"))).
Proof.
  split; [|split; [|split; [|split]]].
  - intros. apply printf_loop_percent.
  - intros. apply printf_loop_dangling.
  - intros fuel c rest ap t H. apply printf_loop_unknown, H.
  - intros rest ap.
    assert (He : emits
              (fun fuel =>
                 tiny_printf fuel
                   (list_ascii_of_string "100%%" ++ NUL :: rest) ap)
              (list_ascii_of_string "100%")).
    { intros fuel t. apply emits_loop. intros t1.
      apply (emits_plain (list_ascii_of_string "100") eq_refl fuel
               ("%"%char :: "%"%char :: NUL :: rest) ap ["%"%char]).
      intros t2. rewrite printf_loop_percent. cbn [putcs].
      apply bind_ext. intros _ t3. reflexivity. }
    split; [exact He|]. apply (emits_transmits _ _ He).
  - intros rest ap.
    assert (He : emits
              (fun fuel =>
                 tiny_printf fuel
                   (list_ascii_of_string "abc%" ++ NUL :: rest) ap)
              (list_ascii_of_string "abc%")).
    { intros fuel t. apply emits_loop. intros t1.
      apply (emits_plain (list_ascii_of_string "abc") eq_refl fuel
               ("%"%char :: NUL :: rest) ap ["%"%char]).
      intros t2. rewrite printf_loop_dangling. cbn [putcs].
      unfold bind. destruct (dbgu_putc fuel "%" t2) as [[] t3| |];
        reflexivity. }
    split; [exact He|]. apply (emits_transmits _ _ He).
Qed.

(** C6.  In [tiny_printf] the directive %s with a null pointer emits the
    six characters of "(null)"; with a pointer to a string it emits the
    characters of the string, in order. *)
Theorem tiny_printf_string :
  (emits (fun fuel => tiny_printf fuel (cstr "%s") [ArgStr None])
         (list_ascii_of_string "(null)") /\
   transmits (fun fuel => tiny_printf fuel (cstr "%s") [ArgStr None])
             (map code (list_ascii_of_string "(null)")) /\
   length (list_ascii_of_string "(null)") = 6%nat) /\
  (forall m,
      terminated m = true ->
      emits (fun fuel => tiny_printf fuel (cstr "%s") [ArgStr (Some m)])
            (c_string m) /\
      transmits (fun fuel => tiny_printf fuel (cstr "%s") [ArgStr (Some m)])
                (crlf (c_string m))) /\
  (forall fuel s rest ap t,
      printf_loop fuel ("%"%char :: "s"%char :: rest) (ArgStr s :: ap) t =
      (dbgu_puts fuel (match s with
                       | None => Some (cstr "(null)")
                       | Some _ => s
                       end) ;;
       printf_loop fuel rest ap) t).
Proof.
  split; [|split].
  - pose proof (emits_s None I) as He. cbn iota in He.
    split; [exact He|]. split; [|reflexivity].
    apply (emits_transmits _ _ He).
  - intros m Hm. pose proof (emits_s (Some m) Hm) as He. cbn iota in He.
    split; [exact He|]. apply (emits_transmits _ _ He).
  - intros. apply printf_loop_s.
Qed.

(** C7.  [dbgu_puts] of a null pointer does nothing.  Otherwise it hands
    the characters of the string to [dbgu_putc], one after the other and
    in order, up to the terminator and not beyond; the terminator is the
    only thing that ends the string, however long it is. *)
Theorem dbgu_puts_sends :
  (forall fuel t, dbgu_puts fuel None t = Done tt t) /\
  (forall fuel m t,
      terminated m = true ->
      dbgu_puts fuel (Some m) t = putcs fuel (c_string m) t) /\
  (forall fuel body rest t,
      forallb (fun c => negb (Ascii.eqb c NUL)) body = true ->
      dbgu_puts fuel (Some (body ++ NUL :: rest)) t = putcs fuel body t) /\
  (forall fuel m t t',
      dbgu_puts fuel (Some m) t = Done tt t' ->
      terminated m = true /\ sent t' = sent t ++ crlf (c_string m)).
Proof.
  split; [|split; [|split]].
  - reflexivity.
  - intros fuel m t Hm. apply puts_loop_putcs, Hm.
  - intros fuel body rest t Hbody.
    destruct (c_string_literal body rest Hbody) as [Ht Hc].
    cbn [dbgu_puts]. rewrite (puts_loop_putcs _ _ _ Ht), Hc. reflexivity.
  - intros fuel m t t' H. cbn [dbgu_puts] in H.
    destruct (terminated m) eqn:Hm.
    + split; [reflexivity|].
      rewrite (puts_loop_putcs _ _ _ Hm) in H. apply (putcs_sent _ _ _ _ H).
    + exfalso. exact (puts_loop_unterminated _ _ _ _ Hm H).
Qed.

(** C8.  [dbgu_getc] polls the status register until a poll shows RXRDY
    (bit 0), then loads the receive holding register once and returns the
    low 8 bits of the value; it makes no store. *)
Theorem dbgu_getc_receives fuel t c t' :
  dbgu_getc fuel t = Done c t' <->
  exists n v,
    (n < fuel)%nat /\ first_ready 0 t n = true /\
    v = u32 (hw (polled t (S n)) RHR) /\
    t' = polled t (S n) ++ [Rd RHR v] /\
    code c = v mod 2 ^ 8 /\
    writes t' = writes t.
Proof.
  rewrite getc_done. split.
  - intros (n & Hn & Hf & -> & ->). exists n. eexists.
    repeat split; try eassumption.
    + apply code_uchar.
    + rewrite writes_app, writes_polled. cbn [writes]. apply app_nil_r.
  - intros (n & v & Hn & Hf & -> & -> & Hc & _). exists n.
    repeat split; try assumption.
    apply code_inj. rewrite Hc, code_uchar. reflexivity.
Qed.

(** C9.  The wait in [dbgu_putc] ends exactly when some poll of the status
    register shows TXRDY (bit 1), and the wait in [dbgu_getc] exactly when
    some poll shows RXRDY (bit 0); for the newline there are two such
    waits, the second after the store of the carriage return.  There is no
    timeout: as long as no poll has shown the bit, the loop is still
    polling and has done nothing else.  A data register is stored to, or
    loaded from, only right after a poll that showed the bit. *)
Theorem busy_wait_termination :
  (forall bit t, 0 <= bit ->
      (exists fuel t', wait_sr (Z.shiftl 1 bit) fuel t = Done tt t') <->
      exists n, ready bit t n = true) /\
  (forall c t,
      (exists fuel t', dbgu_putc fuel c t = Done tt t') <->
      if Ascii.eqb c LF
      then exists n1, first_ready 1 t n1 = true /\
             exists n2, ready 1 (polled t (S n1) ++ [Wr THR 13]) n2 = true
      else exists n, ready 1 t n = true) /\
  (forall t,
      (exists fuel c t', dbgu_getc fuel t = Done c t') <->
      exists n, ready 0 t n = true) /\
  (forall fuel c t,
      (forall k, (k < fuel)%nat -> ready 1 t k = false) ->
      dbgu_putc fuel c t = Spin (polled t fuel)) /\
  (forall fuel t,
      (forall k, (k < fuel)%nat -> ready 0 t k = false) ->
      dbgu_getc fuel t = Spin (polled t fuel)) /\
  (forall fuel c t,
      exists seg, trace_of (dbgu_putc fuel c t) = Some (t ++ seg) /\
                  guarded None seg = true) /\
  (forall fuel t,
      exists seg, trace_of (dbgu_getc fuel t) = Some (t ++ seg) /\
                  guarded None seg = true).
Proof.
  split; [|split; [|split; [|split; [|split; [|split]]]]].
  - intros bit t Hb. split.
    + intros (fuel & t' & H). apply (wait_sr_done _ _ _ _ Hb) in H.
      destruct H as (n & _ & H & _). exists n.
      apply first_ready_spec in H. apply H.
    + intros (n & H).
      destruct (wait_sr_ready bit t n Hb H) as (m & _ & _ & Hw).
      exists (S n). eexists. apply Hw. lia.
  - apply putc_terminates.
  - apply getc_terminates.
  - intros fuel c t Hall. destruct (Ascii.eqb c LF) eqn:Hc.
    + apply Ascii.eqb_eq in Hc. subst c.
      destruct (putc_newline_cases fuel t)
        as [(n1 & Hn1 & Hf1 & _)|[_ E]]; [|exact E].
      ready_clash.
    + destruct (putc_plain_cases fuel c t Hc)
        as [(n & Hn & Hf & _)|[_ E]]; [|exact E].
      ready_clash.
  - intros fuel t Hall.
    destruct (getc_cases fuel t) as [(n & Hn & Hf & _)|[_ E]]; [|exact E].
    ready_clash.
  - apply putc_guarded.
  - apply getc_guarded.
Qed.

(** C10.  For every unsigned long value, [utoa_hex] stores at most
    2 * sizeof(unsigned long) digits and one terminator to the output
    buffer, leaves the rest of it alone, and stays inside its temporary
    array; the output is terminated.  So the 9 bytes that %x provides for
    a 32-bit unsigned int and the 2 * sizeof(unsigned long) + 1 bytes that
    %p provides are enough: neither directive goes wrong. *)
Theorem utoa_hex_buffers :
  (4 <= sizeof_ulong)%nat ->
  (forall v buf,
      (v < 2 ^ (8 * N.of_nat sizeof_ulong))%N ->
      (2 * sizeof_ulong + 1 <= length buf)%nat ->
      exists ds,
        utoa_hex v buf = Some (ds ++ NUL :: skipn (S (length ds)) buf) /\
        (length ds <= 2 * sizeof_ulong)%nat /\
        forallb (fun c => negb (Ascii.eqb c NUL)) ds = true) /\
  (forall v buf,
      (v < 2 ^ 32)%N -> length buf = 9%nat ->
      exists ds,
        utoa_hex v buf = Some (ds ++ NUL :: skipn (S (length ds)) buf) /\
        (length ds <= 8)%nat /\
        forallb (fun c => negb (Ascii.eqb c NUL)) ds = true) /\
  (forall fuel v t,
      tiny_printf fuel (cstr "%x") [ArgUInt v] t <> Fault) /\
  (forall fuel a t,
      tiny_printf fuel (cstr "%p") [ArgPtr a] t <> Fault).
Proof.
  intros Hsz.
  split; [|split; [|split]].
  - intros v buf Hv Hbuf. exists (hex_digits v).
    assert (Hlen : (length (hex_digits v) <= 2 * sizeof_ulong)%nat).
    { apply hex_digits_length; [lia|]. rewrite <- pow2_bytes_nibbles.
      exact Hv. }
    split; [apply utoa_hex_spec; [exact Hv | lia]|].
    split; [exact Hlen | apply hex_digits_no_nul].
  - intros v buf Hv Hbuf. exists (hex_digits v).
    assert (Hlen : (length (hex_digits v) <= 8)%nat).
    { apply hex_digits_length; [lia|]. exact Hv. }
    split; [apply utoa_hex_spec|].
    + eapply N.lt_le_trans; [exact Hv|]. apply N.pow_le_mono_r; lia.
    + lia.
    + split; [exact Hlen | apply hex_digits_no_nul].
  - intros fuel v t. apply (emits_no_fault _ _ fuel t (emits_x v Hsz)).
  - intros fuel a t.
    apply (emits_no_fault _ _ fuel t (emits_p a ltac:(lia))).
Qed.

(** * Further properties of the code *)

(** ** dbgu_init in full *)

Lemma dbgu_init_eval MCK BAUD t :
  0 <= MCK < 2 ^ 32 -> 0 <= BAUD < 2 ^ 32 ->
  dbgu_init MCK BAUD t =
  if BAUD mod 2 ^ 28 =? 0 then Fault
  else Done tt (t ++ [Wr CR 12; Wr MR 2048;
                      Wr BRGR (MCK / (16 * (BAUD mod 2 ^ 28)));
                      Wr CR 80]).
Proof.
  intros HM HB.
  assert (Hr : 0 <= BAUD mod 2 ^ 28 < 2 ^ 28) by (apply Z.mod_pos_bound; lia).
  assert (E1 : u32 MCK = MCK) by (apply Z.mod_small; lia).
  assert (E2 : u32 (16 * u32 BAUD) = 16 * (BAUD mod 2 ^ 28)).
  { unfold u32. rewrite (Z.mod_small BAUD) by lia.
    change (2 ^ 32) with (16 * 2 ^ 28). apply Z.mul_mod_distr_l; lia. }
  unfold dbgu_init, bind, udiv, wr. rewrite E1, E2.
  destruct (Z.eqb_spec (BAUD mod 2 ^ 28) 0) as [H0|Hn0].
  - rewrite H0. reflexivity.
  - destruct (Z.eqb_spec (16 * (BAUD mod 2 ^ 28)) 0) as [H0|_]; [lia|].
    unfold ret.
    assert (Hq : u32 (MCK / (16 * (BAUD mod 2 ^ 28))) =
                 MCK / (16 * (BAUD mod 2 ^ 28))).
    { apply Z.mod_small. split.
      - apply Z.div_pos; lia.
      - apply Z.div_lt_upper_bound; nia. }
    rewrite Hq, <- !app_assoc. reflexivity.
Qed.

(** X1.  For unsigned int constants MCK and BAUD, [dbgu_init] forms
    16 * BAUD in unsigned 32-bit arithmetic, so only BAUD modulo 2^28
    counts: the call divides by zero, and is undefined, exactly when BAUD
    is a multiple of 2^28 (0 among them); otherwise it makes its four
    stores with the divisor MCK / (16 * (BAUD mod 2^28)), whatever the
    device does and without loading a register.  Two baud rates that
    differ by 2^28 program the same divisor. *)
Theorem dbgu_init_unsigned_arithmetic MCK BAUD t :
  0 <= MCK < 2 ^ 32 -> 0 <= BAUD < 2 ^ 32 ->
  (dbgu_init MCK BAUD t = Fault <-> BAUD mod 2 ^ 28 = 0) /\
  (BAUD mod 2 ^ 28 <> 0 ->
   dbgu_init MCK BAUD t =
   Done tt (t ++ [Wr CR 12; Wr MR 2048;
                  Wr BRGR (MCK / (16 * (BAUD mod 2 ^ 28))); Wr CR 80])) /\
  (BAUD + 2 ^ 28 < 2 ^ 32 ->
   dbgu_init MCK (BAUD + 2 ^ 28) t = dbgu_init MCK BAUD t).
Proof.
  intros HM HB. split; [|split].
  - rewrite dbgu_init_eval by assumption.
    destruct (Z.eqb_spec (BAUD mod 2 ^ 28) 0) as [H0|Hn0].
    + split; auto.
    + split; [discriminate | intros H0; contradiction].
  - intros Hn0. rewrite dbgu_init_eval by assumption.
    destruct (Z.eqb_spec (BAUD mod 2 ^ 28) 0) as [H0|_];
      [contradiction | reflexivity].
  - intros Hlt. rewrite !dbgu_init_eval by lia.
    replace ((BAUD + 2 ^ 28) mod 2 ^ 28) with (BAUD mod 2 ^ 28);
      [reflexivity|].
    rewrite <- (Z.mul_1_l (2 ^ 28)) at 2. symmetry. apply Z.mod_add. lia.
Qed.

(** X2.  The divisor that [dbgu_init] programs is rounded down: 16 * BAUD
    times the divisor does not exceed MCK and misses it by less than
    16 * BAUD.  It is 0, which stops the baud rate generator, exactly when
    MCK is below 16 * BAUD. *)
Theorem dbgu_init_divisor_rounds_down MCK BAUD t :
  0 <= MCK < 2 ^ 32 -> 0 < BAUD -> 16 * BAUD < 2 ^ 32 ->
  exists q,
    dbgu_init MCK BAUD t =
      Done tt (t ++ [Wr CR 12; Wr MR 2048; Wr BRGR q; Wr CR 80]) /\
    16 * BAUD * q <= MCK < 16 * BAUD * (q + 1) /\
    (q = 0 <-> MCK < 16 * BAUD).
Proof.
  intros HM HB HB16. exists (MCK / (16 * BAUD)).
  rewrite dbgu_init_eval, (Z.mod_small BAUD) by lia.
  destruct (Z.eqb_spec BAUD 0) as [H0|_]; [lia|].
  split; [reflexivity|].
  pose proof (Z.mul_div_le MCK (16 * BAUD) ltac:(lia)).
  pose proof (Z.mul_succ_div_gt MCK (16 * BAUD) ltac:(lia)).
  split; [lia|]. split.
  - intros Hq. rewrite Hq in *. lia.
  - intros Hlt. apply Z.div_small. lia.
Qed.

(** ** Line ends on the wire *)

Lemma crlf_length l :
  length (crlf l) =
  (length l + length (filter (fun c => Ascii.eqb c LF) l))%nat.
Proof.
  induction l as [|c l IH]; [reflexivity|].
  cbn [crlf filter]. rewrite length_app, IH.
  destruct (Ascii.eqb c LF); cbn [length]; lia.
Qed.

(** X3.  [dbgu_puts] transmits one byte for every character of the string
    and one more for every line feed in it: the carriage return is put
    before each line feed without looking at what was sent before, so a
    string that ends in carriage return, line feed goes out with two
    carriage returns. *)
Theorem dbgu_puts_wire_bytes fuel m t t' :
  dbgu_puts fuel (Some m) t = Done tt t' ->
  length (sent t') =
    (length (sent t) + length (c_string m) +
     length (filter (fun c => Ascii.eqb c LF) (c_string m)))%nat /\
  forall body,
    c_string m = body ++ [CReturn; LF] ->
    sent t' = sent t ++ crlf body ++ [13; 13; 10].
Proof.
  intros H. cbn [dbgu_puts] in H.
  destruct (terminated m) eqn:Hm;
    [|exfalso; exact (puts_loop_unterminated _ _ _ _ Hm H)].
  rewrite (puts_loop_putcs _ _ _ Hm) in H.
  apply putcs_sent in H. rewrite H. split.
  - rewrite length_app, crlf_length. lia.
  - intros body ->. rewrite crlf_app. reflexivity.
Qed.

(** ** tiny_printf on every format *)

Lemma bind_putc_ret fuel c t :
  (dbgu_putc fuel c ;; ret tt) t = dbgu_putc fuel c t.
Proof. unfold bind. destruct (dbgu_putc fuel c t) as [[] t1| |]; reflexivity. Qed.

Lemma bind_putcs {A} fuel l (k k' : M A) t :
  (forall t1, k t1 = k' t1) ->
  (putcs fuel l ;; k) t = (putcs fuel l ;; k') t.
Proof. intros H. apply bind_ext. intros _ t1. apply H. Qed.

Lemma printf_loop_render n :
  (4 <= sizeof_ulong)%nat ->
  forall p ap l,
    (length p <= n)%nat -> render p ap = Some l ->
    forall fuel t, printf_loop fuel p ap t = putcs fuel l t.
Proof.
  intros Hsz. induction n as [|n IH]; intros p ap l Hlen Hr fuel t.
  { destruct p; [discriminate | cbn [length] in Hlen; lia]. }
  destruct p as [|c p1]; [discriminate|].
  cbn [length] in Hlen. cbn [render] in Hr.
  destruct (Ascii.eqb c NUL) eqn:E0.
  { apply Ascii.eqb_eq in E0. subst c. injection Hr as <-. reflexivity. }
  destruct (Ascii.eqb c "%"%char) eqn:E1; cbn [negb] in Hr.
  2:{ destruct (render p1 ap) as [l'|] eqn:E; [|discriminate].
      injection Hr as <-. rewrite (printf_loop_ordinary _ _ _ _ _ E0 E1).
      cbn [putcs]. apply bind_ext. intros _ t1. apply IH; [lia | exact E]. }
  apply Ascii.eqb_eq in E1. subst c.
  destruct p1 as [|c1 p2]; [discriminate|]. cbn [length] in Hlen.
  destruct (Ascii.eqb c1 NUL) eqn:F0.
  { apply Ascii.eqb_eq in F0. subst c1. injection Hr as <-.
    rewrite printf_loop_dangling. cbn [putcs]. symmetry. apply bind_putc_ret. }
  destruct (Ascii.eqb c1 "%"%char) eqn:F1.
  { apply Ascii.eqb_eq in F1. subst c1.
    destruct (render p2 ap) as [l'|] eqn:E; [|discriminate].
    injection Hr as <-. rewrite printf_loop_percent.
    cbn [putcs]. apply bind_ext. intros _ t1. apply IH; [lia | exact E]. }
  destruct (Ascii.eqb c1 "c"%char) eqn:F2.
  { apply Ascii.eqb_eq in F2. subst c1.
    destruct ap as [|[z|s|v|a] ap']; try discriminate.
    destruct (render p2 ap') as [l'|] eqn:E; [|discriminate].
    injection Hr as <-. rewrite printf_loop_c.
    cbn [putcs]. apply bind_ext. intros _ t1. apply IH; [lia | exact E]. }
  destruct (Ascii.eqb c1 "s"%char) eqn:F3.
  { apply Ascii.eqb_eq in F3. subst c1.
    destruct ap as [|[z|s|v|a] ap']; try discriminate.
    rewrite printf_loop_s. destruct s as [m|].
    - destruct (terminated m) eqn:Hm; [|discriminate].
      destruct (render p2 ap') as [l'|] eqn:E; [|discriminate].
      injection Hr as <-. rewrite putcs_app. unfold bind. cbn [dbgu_puts].
      rewrite (puts_loop_putcs _ _ _ Hm).
      destruct (putcs fuel (c_string m) t) as [[] t1| |]; try reflexivity.
      apply IH; [lia | exact E].
    - destruct (render p2 ap') as [l'|] eqn:E; [|discriminate].
      injection Hr as <-.
      transitivity ((putcs fuel (list_ascii_of_string "(null)") ;;
                     putcs fuel l') t);
        [|symmetry; exact (putcs_app fuel (list_ascii_of_string "(null)") l' t)].
      unfold bind. cbn [dbgu_puts].
      rewrite (puts_loop_putcs _ (cstr "(null)")) by reflexivity.
      change (c_string (cstr "(null)")) with (list_ascii_of_string "(null)").
      destruct (putcs fuel (list_ascii_of_string "(null)") t) as [[] t1| |];
        try reflexivity.
      apply IH; [lia | exact E]. }
  destruct (Ascii.eqb c1 "x"%char) eqn:F4.
  { apply Ascii.eqb_eq in F4. subst c1.
    destruct ap as [|[z|s|v|a] ap']; try discriminate.
    destruct (render p2 ap') as [l'|] eqn:E; [|discriminate].
    injection Hr as <-. rewrite (printf_loop_x _ _ _ _ _ Hsz), putcs_app.
    apply bind_putcs. intros t1. apply IH; [lia | exact E]. }
  destruct (Ascii.eqb c1 "p"%char) eqn:F5.
  { apply Ascii.eqb_eq in F5. subst c1.
    destruct ap as [|[z|s|v|a] ap']; try discriminate.
    destruct (render p2 ap') as [l'|] eqn:E; [|discriminate].
    injection Hr as <-. rewrite printf_loop_p by lia.
    transitivity ((putcs fuel ("0"%char :: "x"%char :: hex_digits (ulong a)) ;;
                   putcs fuel l') t);
      [|symmetry;
        exact (putcs_app fuel ("0"%char :: "x"%char :: hex_digits (ulong a))
                 l' t)].
    apply bind_putcs. intros t1. apply IH; [lia | exact E]. }
  destruct (render p2 ap) as [l'|] eqn:E; [|discriminate].
  injection Hr as <-. rewrite printf_loop_unknown.
  - cbn [putcs]. apply bind_ext. intros _ t1. apply bind_ext. intros _ t2.
    apply IH; [lia | exact E].
  - cbn [list_ascii_of_string In].
    intros [H|[H|[H|[H|[H|[H|[]]]]]]]; subst c1; discriminate.
Qed.

Lemma emits_render fmt ap l :
  (4 <= sizeof_ulong)%nat -> render fmt ap = Some l ->
  emits (fun fuel => tiny_printf fuel fmt ap) l.
Proof.
  intros Hsz Hr fuel t. apply emits_loop. intros t1.
  apply (printf_loop_render (length fmt) Hsz fmt ap l (le_n _) Hr).
Qed.

(** X4.  For every format and argument list on which the scan is defined,
    [tiny_printf] hands exactly the characters of [render] to [dbgu_putc],
    in order, and returns 0: the device decides only how long the calls
    wait.  So the call transmits these characters, with a carriage return
    before each line feed, never goes wrong, and returns whenever the
    transmitter keeps getting ready. *)
Theorem tiny_printf_renders fmt ap l :
  (4 <= sizeof_ulong)%nat -> render fmt ap = Some l ->
  emits (fun fuel => tiny_printf fuel fmt ap) l /\
  transmits (fun fuel => tiny_printf fuel fmt ap) (crlf l).
Proof.
  intros Hsz Hr. pose proof (emits_render fmt ap l Hsz Hr) as He.
  split; [exact He | apply (emits_transmits _ _ He)].
Qed.

Lemma render_surplus n extra :
  forall p ap l,
    (length p <= n)%nat -> render p ap = Some l ->
    render p (ap ++ extra) = Some l.
Proof.
  induction n as [|n IH]; intros p ap l Hlen Hr.
  { destruct p; [discriminate | cbn [length] in Hlen; lia]. }
  destruct p as [|c p1]; [discriminate|].
  cbn [length] in Hlen. cbn [render] in Hr |- *.
  destruct (Ascii.eqb c NUL); [exact Hr|].
  destruct (Ascii.eqb c "%"%char); cbn [negb] in Hr |- *.
  2:{ destruct (render p1 ap) as [l'|] eqn:E; [|discriminate].
      rewrite (IH p1 ap l') by (lia || assumption). exact Hr. }
  destruct p1 as [|c1 p2]; [discriminate|]. cbn [length] in Hlen.
  destruct (Ascii.eqb c1 NUL); [exact Hr|].
  destruct (Ascii.eqb c1 "%"%char).
  { destruct (render p2 ap) as [l'|] eqn:E; [|discriminate].
    rewrite (IH p2 ap l') by (lia || assumption). exact Hr. }
  destruct (Ascii.eqb c1 "c"%char).
  { destruct ap as [|[z|s|v|a] ap']; try discriminate. cbn [app].
    destruct (render p2 ap') as [l'|] eqn:E; [|discriminate].
    rewrite (IH p2 ap' l') by (lia || assumption). exact Hr. }
  destruct (Ascii.eqb c1 "s"%char).
  { destruct ap as [|[z|s|v|a] ap']; try discriminate. cbn [app].
    destruct s as [m|]; [destruct (terminated m); [|discriminate]|];
      (destruct (render p2 ap') as [l'|] eqn:E; [|discriminate]);
      rewrite (IH p2 ap' l') by (lia || assumption); exact Hr. }
  destruct (Ascii.eqb c1 "x"%char).
  { destruct ap as [|[z|s|v|a] ap']; try discriminate. cbn [app].
    destruct (render p2 ap') as [l'|] eqn:E; [|discriminate].
    rewrite (IH p2 ap' l') by (lia || assumption). exact Hr. }
  destruct (Ascii.eqb c1 "p"%char).
  { destruct ap as [|[z|s|v|a] ap']; try discriminate. cbn [app].
    destruct (render p2 ap') as [l'|] eqn:E; [|discriminate].
    rewrite (IH p2 ap' l') by (lia || assumption). exact Hr. }
  destruct (render p2 ap) as [l'|] eqn:E; [|discriminate].
  rewrite (IH p2 ap l') by (lia || assumption). exact Hr.
Qed.

(** X5.  Arguments beyond those that the directives of the format take are
    ignored: with more arguments at the end of the list the call does the
    same. *)
Theorem tiny_printf_surplus_arguments fmt ap extra l fuel t :
  (4 <= sizeof_ulong)%nat -> render fmt ap = Some l ->
  tiny_printf fuel fmt (ap ++ extra) t = tiny_printf fuel fmt ap t.
Proof.
  intros Hsz Hr.
  pose proof (render_surplus (length fmt) extra fmt ap l (le_n _) Hr) as Hr'.
  rewrite (emits_render _ _ _ Hsz Hr fuel t).
  apply (emits_render _ _ _ Hsz Hr' fuel t).
Qed.

Lemma printf_loop_plain fuel ap p t :
  forallb (fun c => negb (Ascii.eqb c "%"%char)) (c_string p) = true ->
  printf_loop fuel p ap t = puts_loop fuel p t.
Proof.
  revert t. induction p as [|c p IH]; intros t Hp; [reflexivity|].
  cbn [c_string] in Hp. destruct (Ascii.eqb c NUL) eqn:E0.
  - cbn [printf_loop puts_loop]. rewrite E0. reflexivity.
  - cbn [forallb] in Hp. apply andb_true_iff in Hp. destruct Hp as [E1 Hp].
    apply negb_true_iff in E1.
    rewrite (printf_loop_ordinary _ _ _ _ _ E0 E1).
    cbn [puts_loop]. rewrite E0. apply bind_ext. intros _ t1. apply IH, Hp.
Qed.

(** X6.  On a format without a percent sign [tiny_printf] does what
    [dbgu_puts] does on the same string, whatever arguments it is given,
    and returns 0. *)
Theorem tiny_printf_plain_is_puts fuel fmt ap t :
  forallb (fun c => negb (Ascii.eqb c "%"%char)) (c_string fmt) = true ->
  tiny_printf fuel fmt ap t = (dbgu_puts fuel (Some fmt) ;; ret 0) t.
Proof.
  intros Hp. unfold tiny_printf, bind. cbn [dbgu_puts].
  rewrite (printf_loop_plain _ _ _ _ Hp). reflexivity.
Qed.

(** ** The registers that the output routines touch *)

Lemma guarded_any_prev seg prev :
  guarded None seg = true -> guarded prev seg = true.
Proof.
  destruct seg as [|e seg]; [reflexivity|]. cbn [guarded].
  destruct e as [[]|[]]; cbn; try discriminate; auto.
Qed.

Lemma guarded_app prev a b :
  guarded prev a = true -> guarded None b = true ->
  guarded prev (a ++ b) = true.
Proof.
  revert prev. induction a as [|e a IH]; intros prev Ha Hb.
  - apply guarded_any_prev, Hb.
  - cbn [app guarded] in Ha |- *. apply andb_true_iff in Ha.
    destruct Ha as [He Ha]. rewrite He. apply (IH _ Ha Hb).
Qed.

Lemma others_nil ok (seg : trace) :
  filter (fun e => negb (ok e)) seg = [] -> forallb ok seg = true.
Proof.
  induction seg as [|e seg IH]; [reflexivity|]. cbn [filter forallb].
  destruct (ok e); cbn [negb]; [exact IH | discriminate].
Qed.

Lemma others_polled ok t n :
  (forall v, ok (Rd SR v) = true) ->
  filter (fun e => negb (ok e)) (polled t n) = filter (fun e => negb (ok e)) t.
Proof.
  intros Hok. rewrite polled_seg, filter_app.
  induction (map (sr_at t) (seq 0 n)) as [|v vs IH].
  - apply app_nil_r.
  - cbn [map filter]. rewrite Hok. exact IH.
Qed.

Lemma others_confined {A} ok (m : M A) :
  (forall t t', trace_of (m t) = Some t' ->
     filter (fun e => negb (ok e)) t' = filter (fun e => negb (ok e)) t) ->
  (forall t, exists seg, trace_of (m t) = Some (t ++ seg) /\
                         guarded None seg = true) ->
  confined ok m.
Proof.
  intros Hothers Hguard t t' H.
  destruct (Hguard t) as (seg & E & G). rewrite H in E. injection E as ->.
  exists seg. split; [reflexivity|]. split; [|exact G].
  apply others_nil. specialize (Hothers t _ H).
  rewrite filter_app in Hothers.
  rewrite <- (app_nil_r (filter _ t)) in Hothers at 2.
  apply app_inv_head in Hothers. exact Hothers.
Qed.

Lemma putc_confined fuel c : confined tx_event (dbgu_putc fuel c).
Proof.
  apply others_confined; [|apply putc_guarded].
  intros t t'. destruct (Ascii.eqb c LF) eqn:Hc.
  - apply Ascii.eqb_eq in Hc. subst c.
    destruct (putc_newline_cases fuel t)
      as [(n1 & _ & _ & [(n2 & _ & _ & E)|[_ E]])|[_ E]];
      rewrite E; intros [= <-];
      repeat (rewrite ?filter_app, ?others_polled by reflexivity;
              cbn [filter tx_event negb]);
      rewrite ?app_nil_r; reflexivity.
  - destruct (putc_plain_cases fuel c t Hc) as [(n & _ & _ & E)|[_ E]];
      rewrite E; intros [= <-];
      repeat (rewrite ?filter_app, ?others_polled by reflexivity;
              cbn [filter tx_event negb]);
      rewrite ?app_nil_r; reflexivity.
Qed.

Lemma getc_confined fuel : confined io_event (dbgu_getc fuel).
Proof.
  apply others_confined; [|apply getc_guarded].
  intros t t'.
  destruct (getc_cases fuel t) as [(n & _ & _ & E)|[_ E]];
    cbn zeta in E; rewrite E; intros [= <-];
    repeat (rewrite ?filter_app, ?others_polled by reflexivity;
            cbn [filter io_event negb]);
    rewrite ?app_nil_r; reflexivity.
Qed.

Lemma confined_ret {A} ok (a : A) : confined ok (ret a).
Proof.
  intros t t' [= <-]. exists []. rewrite app_nil_r. auto.
Qed.

Lemma confined_spin {A} ok : confined ok (fun t => @Spin A t).
Proof.
  intros t t' [= <-]. exists []. rewrite app_nil_r. auto.
Qed.

Lemma confined_fault {A} ok : confined ok (@fault A).
Proof. intros t t' H. discriminate. Qed.

Lemma confined_bind {A B} ok (m : M A) (k : A -> M B) :
  confined ok m -> (forall a, confined ok (k a)) -> confined ok (bind m k).
Proof.
  intros Hm Hk t t' H. unfold bind in H.
  destruct (m t) as [a t1|t1|] eqn:Em.
  - destruct (Hm t t1) as (s1 & -> & F1 & G1); [rewrite Em; reflexivity|].
    destruct (Hk a _ _ H) as (s2 & -> & F2 & G2).
    exists (s1 ++ s2). rewrite app_assoc, forallb_app, F1, F2.
    split; [reflexivity|]. split; [reflexivity|]. apply guarded_app; assumption.
  - injection H as <-. apply Hm. rewrite Em. reflexivity.
  - discriminate.
Qed.

Lemma confined_weaken {A} (ok ok' : event -> bool) (m : M A) :
  (forall e, ok e = true -> ok' e = true) -> confined ok m -> confined ok' m.
Proof.
  intros Hsub Hm t t' H. destruct (Hm t t' H) as (seg & -> & F & G).
  exists seg. split; [reflexivity|]. split; [|exact G].
  rewrite forallb_forall in F |- *. intros e He. apply Hsub, F, He.
Qed.

Lemma tx_event_io e : tx_event e = true -> io_event e = true.
Proof. destruct e as [[]|[]]; cbn; auto. Qed.

Lemma puts_confined fuel s : confined tx_event (dbgu_puts fuel s).
Proof.
  destruct s as [m|]; [|apply confined_ret]. cbn [dbgu_puts].
  induction m as [|c m IH]; [apply confined_fault|].
  cbn [puts_loop]. destruct (Ascii.eqb c NUL); [apply confined_ret|].
  apply confined_bind; [apply putc_confined | intros _; exact IH].
Qed.

Ltac confine IH :=
  repeat first
    [ apply confined_ret
    | apply confined_fault
    | apply putc_confined
    | apply puts_confined
    | apply IH; cbn [length] in *; lia
    | apply confined_bind; [|intros ?] ].

Lemma printf_loop_confined fuel n :
  forall p ap, (length p <= n)%nat -> confined tx_event (printf_loop fuel p ap).
Proof.
  induction n as [|n IH]; intros p ap Hlen.
  { destruct p; [apply confined_fault | cbn [length] in Hlen; lia]. }
  destruct p as [|c p1]; [apply confined_fault|]. cbn [printf_loop].
  destruct (Ascii.eqb c NUL); [apply confined_ret|].
  destruct (negb (Ascii.eqb c "%"%char)); [confine IH|].
  destruct p1 as [|c1 p2]; [apply confined_fault|].
  destruct (Ascii.eqb c1 NUL); [confine IH|].
  destruct (Ascii.eqb c1 "%"%char); [confine IH|].
  destruct (Ascii.eqb c1 "c"%char);
    [destruct ap as [|[z|s|v|a] ap']; confine IH|].
  destruct (Ascii.eqb c1 "s"%char);
    [destruct ap as [|[z|s|v|a] ap']; confine IH|].
  destruct (Ascii.eqb c1 "x"%char).
  { destruct ap as [|[z|s|v|a] ap']; try apply confined_fault.
    destruct (utoa_hex (ulong (v mod 2 ^ 32)) (auto_array 9)); confine IH. }
  destruct (Ascii.eqb c1 "p"%char).
  { destruct ap as [|[z|s|v|a] ap']; try apply confined_fault.
    apply confined_bind; [apply puts_confined|]. intros _.
    destruct (utoa_hex (ulong a) (auto_array (2 * sizeof_ulong + 1)));
      confine IH. }
  confine IH.
Qed.

Lemma tiny_printf_confined fuel fmt ap :
  confined tx_event (tiny_printf fuel fmt ap).
Proof.
  unfold tiny_printf. apply confined_bind.
  - apply (printf_loop_confined fuel (length fmt)). apply le_n.
  - intros _. apply confined_ret.
Qed.

(** X7.  Whatever the format and the arguments, and whether the call
    returns or is still waiting, [tiny_printf] and [dbgu_puts] only add
    polls of the status register and stores to the transmit holding
    register to the trace: they never store to the control, mode or baud
    rate registers and never load the receive holding register, so no
    received character is lost to them.  Every store follows a poll that
    showed TXRDY. *)
Theorem output_touches_only_transmitter fuel t t' :
  (forall fmt ap,
      trace_of (tiny_printf fuel fmt ap t) = Some t' ->
      exists seg, t' = t ++ seg /\ forallb tx_event seg = true /\
                  guarded None seg = true) /\
  (forall s,
      trace_of (dbgu_puts fuel s t) = Some t' ->
      exists seg, t' = t ++ seg /\ forallb tx_event seg = true /\
                  guarded None seg = true).
Proof.
  split.
  - intros fmt ap. apply tiny_printf_confined.
  - intros s. apply puts_confined.
Qed.

(** ** main *)

Lemma no_fault_bind {A B} (m : M A) (k : A -> M B) :
  no_fault m -> (forall a, no_fault (k a)) -> no_fault (bind m k).
Proof.
  intros Hm Hk t. unfold bind. specialize (Hm t).
  destruct (m t) as [a t1|t1|]; [apply Hk | discriminate | congruence].
Qed.

Lemma never_done_bind {A B} (m : M A) (k : A -> M B) :
  (forall a, never_done (k a)) -> never_done (bind m k).
Proof.
  intros Hk t b t'. unfold bind.
  destruct (m t) as [a t1|t1|]; [apply Hk | discriminate | discriminate].
Qed.

Lemma uchar_code c : uchar (code c) = c.
Proof.
  unfold uchar, code. pose proof (N_ascii_bounded c).
  rewrite Z.mod_small by lia. rewrite N2Z.id. apply ascii_N_embedding.
Qed.

Lemma render_fmt_received z :
  render fmt_received [ArgInt z] =
  Some (list_ascii_of_string "Received character: '" ++ [uchar z] ++
        ["'"%char; CReturn; LF]).
Proof. reflexivity. Qed.

Lemma render_fmt_all z m v a :
  terminated m = true ->
  render fmt_all [ArgInt z; ArgStr (Some m); ArgUInt v; ArgPtr a] =
  Some (list_ascii_of_string "%c='" ++ [uchar z] ++
        list_ascii_of_string "'  %s=" ++ [DQUOTE] ++ c_string m ++ [DQUOTE] ++
        list_ascii_of_string "  %x=" ++ hex_digits (v mod 2 ^ 32) ++
        list_ascii_of_string "  %p=0x" ++ hex_digits (ulong a) ++
        [CReturn; LF]).
Proof.
  intros Hm. unfold fmt_all.
  cbn -[hex_digits uchar ulong c_string terminated N.modulo N.pow].
  rewrite Hm.
  cbn -[hex_digits uchar ulong c_string terminated N.modulo N.pow].
  reflexivity.
Qed.

Lemma render_echo c :
  (1 <= sizeof_ulong)%nat ->
  exists l1 l2,
    render fmt_received [ArgInt (code c)] = Some l1 /\
    render fmt_all [ArgInt (code c); ArgStr (Some [c; NUL]);
                    ArgUInt (N_of_ascii c); ArgPtr (N_of_ascii c)] = Some l2 /\
    l1 ++ l2 = echo c.
Proof.
  intros Hsz. pose proof (N_ascii_bounded c) as Hc.
  assert (Hm : terminated [c; NUL] = true).
  { cbn. destruct (Ascii.eqb c NUL); reflexivity. }
  assert (Hu : ulong (N_of_ascii c) = N_of_ascii c).
  { unfold ulong. apply N.mod_small. eapply N.lt_le_trans; [exact Hc|].
    change 256%N with (2 ^ 8)%N. apply N.pow_le_mono_r; lia. }
  assert (Hv : (N_of_ascii c mod 2 ^ 32 = N_of_ascii c)%N).
  { apply N.mod_small. eapply N.lt_le_trans; [exact Hc|].
    change 256%N with (2 ^ 8)%N. apply N.pow_le_mono_r; lia. }
  do 2 eexists. split; [apply render_fmt_received|].
  split; [apply (render_fmt_all _ _ _ _ Hm)|].
  rewrite Hu, Hv, uchar_code. unfold echo.
  replace (c_string [c; NUL]) with (if Ascii.eqb c NUL then [] else [c])
    by (cbn; destruct (Ascii.eqb c NUL); reflexivity).
  rewrite <- !app_assoc. reflexivity.
Qed.

Lemma emits_then {A} run1 l1 (k : M A) fuel t :
  emits run1 l1 ->
  (run1 fuel ;; k) t = (putcs fuel l1 ;; k) t.
Proof.
  intros He. unfold bind. rewrite (He fuel t). unfold bind.
  destruct (putcs fuel l1 t) as [[] t1| |]; reflexivity.
Qed.

Lemma putcs_app_then {A} fuel a b (k : M A) t :
  (putcs fuel (a ++ b) ;; k) t = (putcs fuel a ;; putcs fuel b ;; k) t.
Proof.
  revert t. induction a as [|c a IH]; intros t; [reflexivity|].
  cbn [app putcs]. rewrite !bind_assoc. apply bind_ext. intros _ t1. apply IH.
Qed.

(** X8.  One turn of the loop of [main] waits for a character, then hands
    the characters of [echo] to [dbgu_putc]: two lines that show the
    character as it is, between quotes, and its code in hexadecimal with
    and without the 0x.  The received character is an argument and never
    part of a format, so a received percent sign is printed like any other
    character; a received NUL prints as an empty string under %s. *)
Theorem main_loop_echoes fuel iters t :
  (4 <= sizeof_ulong)%nat ->
  main_loop fuel (S iters) t =
  (c <- dbgu_getc fuel ;; putcs fuel (echo c) ;; main_loop fuel iters) t.
Proof.
  intros Hsz. cbn [main_loop]. apply bind_ext. intros c t1. cbn beta.
  destruct (render_echo c ltac:(lia)) as (l1 & l2 & H1 & H2 & He).
  rewrite <- He.
  rewrite (emits_then _ _ _ _ _ (emits_render _ _ _ Hsz H1)).
  rewrite putcs_app_then. apply bind_putcs. intros t2.
  apply (emits_then _ _ _ _ _ (emits_render _ _ _ Hsz H2)).
Qed.


Lemma main_loop_confined fuel iters : confined io_event (main_loop fuel iters).
Proof.
  induction iters as [|k IH]; [apply confined_spin|]. cbn [main_loop].
  apply confined_bind; [apply getc_confined|]. intros c.
  apply confined_bind;
    [apply (confined_weaken _ _ _ tx_event_io), tiny_printf_confined|].
  intros _.
  apply confined_bind;
    [apply (confined_weaken _ _ _ tx_event_io), tiny_printf_confined|].
  intros _. exact IH.
Qed.

Lemma main_loop_never_done fuel iters : never_done (main_loop fuel iters).
Proof.
  induction iters as [|k IH]; [discriminate|]. cbn [main_loop].
  apply never_done_bind. intros c.
  apply never_done_bind. intros _.
  apply never_done_bind. intros _. exact IH.
Qed.

Lemma getc_no_fault fuel : no_fault (dbgu_getc fuel).
Proof.
  intros t. destruct (getc_cases fuel t) as [(n & _ & _ & E)|[_ E]];
    cbn zeta in E; rewrite E; discriminate.
Qed.

Lemma main_loop_no_fault fuel iters :
  (4 <= sizeof_ulong)%nat -> no_fault (main_loop fuel iters).
Proof.
  intros Hsz. induction iters as [|k IH]; [discriminate|]. cbn [main_loop].
  apply no_fault_bind; [apply getc_no_fault|]. intros c.
  destruct (render_echo c ltac:(lia)) as (l1 & l2 & H1 & H2 & _).
  apply no_fault_bind.
  { intros t. apply (emits_no_fault _ _ fuel t (emits_render _ _ _ Hsz H1)). }
  intros _. apply no_fault_bind.
  { intros t. apply (emits_no_fault _ _ fuel t (emits_render _ _ _ Hsz H2)). }
  intros _. exact IH.
Qed.

(** X9.  [main] never returns and never goes wrong.  It programs the debug
    unit once, with the four stores of [dbgu_init], before anything else;
    whatever it adds to the trace after that is a poll of the status
    register, a load of the receive holding register or a store to the
    transmit holding register, each access to a data register right after
    a poll that showed its ready bit. *)
Theorem main_runs_forever MCK BAUD fuel iters t :
  (4 <= sizeof_ulong)%nat ->
  0 <= MCK < 2 ^ 32 -> 0 < BAUD -> 16 * BAUD < 2 ^ 32 ->
  exists seg,
    main MCK BAUD fuel iters t =
      Spin (t ++ [Wr CR 12; Wr MR 2048; Wr BRGR (MCK / (16 * BAUD)); Wr CR 80]
              ++ seg) /\
    forallb io_event seg = true /\
    guarded None seg = true.
Proof.
  intros Hsz HM HB HB16. unfold main. unfold bind at 1.
  rewrite dbgu_init_eval, (Z.mod_small BAUD) by lia.
  destruct (Z.eqb_spec BAUD 0) as [H0|_]; [lia|].
  set (t0 := t ++ _).
  set (rest := dbgu_puts fuel (Some banner) ;; main_loop fuel iters).
  assert (Hc : confined io_event rest).
  { apply confined_bind;
      [apply (confined_weaken _ _ _ tx_event_io), puts_confined|].
    intros _. apply main_loop_confined. }
  assert (Hf : no_fault rest).
  { apply no_fault_bind; [|intros _; apply main_loop_no_fault, Hsz].
    intros t1. cbn [dbgu_puts].
    rewrite (puts_loop_putcs _ banner) by reflexivity. apply putcs_no_fault. }
  assert (Hd : never_done rest).
  { apply never_done_bind. intros _. apply main_loop_never_done. }
  specialize (Hc t0). specialize (Hf t0). specialize (Hd t0).
  destruct (rest t0) as [r t1|t1|].
  - exfalso. exact (Hd r t1 eq_refl).
  - destruct (Hc t1 eq_refl) as (seg & -> & F & G).
    exists seg. unfold t0. rewrite <- app_assoc. auto.
  - congruence.
Qed.

(** ** utoa_hex: how much room it needs, and what it writes *)

Lemma lsd_digits_count k v :
  v <> 0%N -> (v < 16 ^ N.of_nat k)%N ->
  length (lsd_digits k v) = S (N.to_nat (N.log2 v / 4)).
Proof.
  revert v. induction k as [|k IH]; intros v Hne Hv.
  - change (16 ^ N.of_nat 0)%N with 1%N in Hv. lia.
  - rewrite (lsd_digits_step _ _ Hne). cbn [length]. f_equal.
    destruct (N.eq_dec (N.shiftr v 4) 0) as [Hz|Hnz].
    + rewrite Hz, lsd_digits_zero. cbn [length].
      rewrite N.shiftr_div_pow2 in Hz. change (2 ^ 4)%N with 16%N in Hz.
      apply N.div_small_iff in Hz; [|lia].
      assert (N.log2 v < 4)%N by (apply N.log2_lt_pow2; lia).
      rewrite N.div_small by assumption. reflexivity.
    + rewrite (IH _ Hnz (shiftr4_lt _ _ Hv)), N.log2_shiftr.
      assert (H16 : (16 <= v)%N).
      { rewrite N.shiftr_div_pow2 in Hnz. change (2 ^ 4)%N with 16%N in Hnz.
        destruct (N.lt_ge_cases v 16) as [Hlt|Hge]; [|exact Hge].
        rewrite N.div_small in Hnz by exact Hlt. contradiction. }
      assert (4 <= N.log2 v)%N.
      { change 4%N with (N.log2 16). apply N.log2_le_mono, H16. }
      replace (N.log2 v) with (N.log2 v - 4 + 1 * 4)%N at 2 by lia.
      rewrite N.div_add by lia. lia.
Qed.

Lemma hex_digits_ndigits v : length (hex_digits v) = ndigits v.
Proof.
  unfold ndigits. destruct (N.eqb_spec v 0) as [->|Hne]; [reflexivity|].
  rewrite (hex_digits_nonzero _ v Hne (log2_fuel v Hne)), length_rev.
  apply lsd_digits_count; [exact Hne | apply log2_fuel, Hne].
Qed.

Lemma store_outside a i c :
  Z.of_nat (length a) <= i -> store a i c = None.
Proof.
  intros H. unfold store.
  destruct (Z.ltb_spec i (Z.of_nat (length a))); [lia|].
  rewrite andb_false_r. reflexivity.
Qed.

Lemma reverse_loop_short i tmp mid pre :
  (length pre + length mid < i)%nat ->
  reverse_loop (Z.of_nat i) (Z.of_nat (length pre)) tmp (pre ++ mid) = None.
Proof.
  revert pre. induction mid as [|x mid IH]; intros pre Hlen;
    rewrite reverse_loop_eq; cbn [length] in Hlen;
    (destruct (Z.ltb_spec (Z.of_nat (length pre)) (Z.of_nat i)); [|lia]);
    destruct (load tmp (Z.of_nat i - 1 - Z.of_nat (length pre))) as [c|];
    try reflexivity.
  - rewrite app_nil_r, store_outside by lia. reflexivity.
  - rewrite store_at.
    replace (Z.of_nat (length pre) + 1)
      with (Z.of_nat (length (pre ++ [c])))
      by (rewrite length_app; cbn [length]; lia).
    replace (pre ++ c :: mid) with ((pre ++ [c]) ++ mid)
      by (rewrite <- app_assoc; reflexivity).
    apply IH. rewrite length_app. cbn [length]. lia.
Qed.

Lemma utoa_hex_short v buf :
  (v < 2 ^ (8 * N.of_nat sizeof_ulong))%N ->
  (length buf <= length (hex_digits v))%nat ->
  utoa_hex v buf = None.
Proof.
  rewrite pow2_bytes_nibbles. intros Hv Hbuf. unfold utoa_hex.
  destruct (N.eq_dec v 0) as [->|Hne].
  - change (hex_digits 0) with ["0"%char] in Hbuf. cbn [length] in Hbuf.
    change (0 =? 0)%N with true. cbn iota.
    destruct buf as [|x [|y buf]]; cbn [length] in Hbuf; try lia;
      reflexivity.
  - apply N.eqb_neq in Hne as Hb. rewrite Hb.
    rewrite (hex_digits_nonzero _ v Hne Hv), length_rev in Hbuf.
    pose proof (digits_loop_spec (2 * sizeof_ulong) v []
                  (auto_array (2 * sizeof_ulong)) [] Hv
                  (length_auto_array _)) as Hloop.
    cbn zeta in Hloop. cbn [app length Nat.add] in Hloop.
    rewrite !app_nil_r in Hloop.
    change (Z.of_nat 0) with 0 in Hloop. rewrite Hloop.
    set (ds := lsd_digits (2 * sizeof_ulong) v) in *.
    destruct (Nat.eq_dec (length buf) (length ds)) as [Heq|Hlt].
    + pose proof (reverse_loop_spec ds
                    (skipn (length ds) (auto_array (2 * sizeof_ulong)))
                    buf [] []) as Hrev.
      cbn [app length Nat.add skipn] in Hrev.
      change (Z.of_nat 0) with 0 in Hrev.
      rewrite !app_nil_r in Hrev. rewrite (Hrev Heq).
      apply store_outside. rewrite length_rev. lia.
    + pose proof (reverse_loop_short (length ds)
                    (ds ++ skipn (length ds) (auto_array (2 * sizeof_ulong)))
                    buf []) as Hrev.
      cbn [app length Nat.add] in Hrev.
      change (Z.of_nat 0) with 0 in Hrev.
      rewrite Hrev by lia. reflexivity.
Qed.

(** X10.  For an unsigned long value, [utoa_hex] succeeds exactly when the
    output buffer is longer than the number of hexadecimal digits of the
    value, 1 for zero and log2 v / 4 + 1 otherwise: one byte less and it
    writes outside the buffer.  The string it leaves has exactly that many
    characters. *)
Theorem utoa_hex_room v buf :
  (v < 2 ^ (8 * N.of_nat sizeof_ulong))%N ->
  (utoa_hex v buf <> None <-> (ndigits v < length buf)%nat) /\
  (forall buf', utoa_hex v buf = Some buf' ->
                length (c_string buf') = ndigits v).
Proof.
  intros Hv. rewrite <- hex_digits_ndigits.
  destruct (Nat.lt_ge_cases (length (hex_digits v)) (length buf))
    as [Hlt|Hge].
  - rewrite (utoa_hex_spec v buf Hv Hlt). split.
    + split; [intros _; exact Hlt | discriminate].
    + intros buf' [= <-].
      rewrite (proj2 (c_string_literal (hex_digits v) _
                        (hex_digits_no_nul v))). reflexivity.
  - rewrite (utoa_hex_short v buf Hv Hge). split.
    + split; [congruence | lia].
    + discriminate.
Qed.

Lemma lower_hex_digit c x :
  lower_hex c = true -> hex_value c = Some x ->
  (x < 16)%N /\ digit_of x = c /\ (x = 0%N -> c = "0"%char).
Proof.
  intros Hc Hx. unfold lower_hex in Hc. apply existsb_exists in Hc.
  destruct Hc as (y & Hin & Hy). apply Ascii.eqb_eq in Hy. subst y.
  cbn [list_ascii_of_string In] in Hin.
  repeat (destruct Hin as [<-|Hin];
          [injection Hx as <-; repeat split; (reflexivity || discriminate)|]).
  contradiction.
Qed.

Lemma nibble_of_sum v' x :
  (x < 16)%N ->
  N.land (16 * v' + x) 15 = x /\ N.shiftr (16 * v' + x) 4 = v'.
Proof.
  intros Hx. change 15%N with (N.ones 4).
  rewrite N.land_ones, N.shiftr_div_pow2. change (2 ^ 4)%N with 16%N.
  split.
  - rewrite N.add_comm, N.mul_comm, N.Div0.mod_add. apply N.mod_small, Hx.
  - rewrite N.add_comm, N.mul_comm, N.div_add by lia.
    rewrite N.div_small by exact Hx. reflexivity.
Qed.

(** A numeral read from its last digit on: its digits are those that the
    loop of [utoa_hex] produces. *)
Lemma lsd_digits_unique r :
  forall v,
    forallb lower_hex r = true ->
    parse_hex_from 0 (rev r) = Some v ->
    (r <> [] -> hd NUL (rev r) <> "0"%char) ->
    (r = [] /\ v = 0%N) \/
    (v <> 0%N /\ forall k, (v < 16 ^ N.of_nat k)%N -> lsd_digits k v = r).
Proof.
  induction r as [|c r IH]; intros v Hlow Hval Hlead.
  - left. injection Hval as <-. auto.
  - right. cbn [forallb] in Hlow. apply andb_true_iff in Hlow.
    destruct Hlow as [Hc Hlow]. cbn [rev] in Hval, Hlead.
    rewrite parse_hex_from_app in Hval.
    destruct (parse_hex_from 0 (rev r)) as [v'|] eqn:Ev; [|discriminate].
    cbn [parse_hex_from] in Hval.
    destruct (hex_value c) as [x|] eqn:Ex; [|discriminate].
    assert (Hv : v = (16 * v' + x)%N) by congruence.
    clear Hval. subst v.
    destruct (lower_hex_digit c x Hc Ex) as (Hx & Hd & Hz).
    destruct (nibble_of_sum v' x Hx) as [Hland Hshift].
    assert (Hstep : forall k, (16 * v' + x <> 0)%N ->
               lsd_digits (S k) (16 * v' + x) = c :: lsd_digits k v').
    { intros k Hne. rewrite (lsd_digits_step _ _ Hne), Hland, Hshift, Hd.
      reflexivity. }
    assert (Hlead' : r <> [] -> hd NUL (rev r) <> "0"%char).
    { intros Hr. destruct (rev r) as [|y ys] eqn:Er.
      - apply (f_equal (@rev ascii)) in Er. rewrite rev_involutive in Er.
        contradiction.
      - cbn [app hd] in Hlead. apply Hlead. discriminate. }
    destruct (IH v' Hlow eq_refl Hlead') as [[-> ->]|[Hne' Hall]].
    + assert (Hne : (16 * 0 + x <> 0)%N).
      { intros H0. apply Hlead; [discriminate|]. cbn [rev app hd].
        apply Hz. lia. }
      split; [exact Hne|]. intros [|k] Hk.
      * change (16 ^ N.of_nat 0)%N with 1%N in Hk. lia.
      * pose proof (Hstep k Hne) as Hs. rewrite lsd_digits_zero in Hs.
        exact Hs.
    + assert (Hne : (16 * v' + x <> 0)%N) by lia.
      split; [exact Hne|]. intros [|k] Hk.
      * change (16 ^ N.of_nat 0)%N with 1%N in Hk. lia.
      * rewrite (Hstep k Hne). f_equal. apply Hall.
        rewrite pow16_S in Hk. lia.
Qed.

Lemma minimal_hex_unique v s : minimal_hex v s -> s = hex_digits v.
Proof.
  intros (Hlow & Hval & Hzero & Hlead).
  destruct (N.eq_dec v 0) as [->|Hne]; [apply Hzero; reflexivity|].
  specialize (Hlead Hne).
  assert (Hs : s <> []) by (intros ->; discriminate).
  assert (Hval' : parse_hex_from 0 (rev (rev s)) = Some v).
  { rewrite rev_involutive. destruct s; [contradiction | exact Hval]. }
  destruct (lsd_digits_unique (rev s) v) as [[_ ->]|[_ Hall]].
  - apply forallb_forall. intros c Hin. apply in_rev in Hin.
    rewrite forallb_forall in Hlow. apply Hlow, Hin.
  - exact Hval'.
  - intros _. rewrite rev_involutive. exact Hlead.
  - contradiction.
  - rewrite (hex_digits_nonzero _ v Hne (log2_fuel v Hne)).
    rewrite (Hall _ (log2_fuel v Hne)). symmetry. apply rev_involutive.
Qed.

(** X11.  Reading a numeral and writing its value gives the numeral back:
    when [s] consists of lowercase hexadecimal digits, has no leading zero
    (or is the single digit 0) and reads as the unsigned long value [v],
    [utoa_hex] of [v] leaves exactly [s] in the buffer. *)
Theorem utoa_hex_of_parse_hex s v buf :
  (1 <= sizeof_ulong)%nat ->
  (v < 2 ^ (8 * N.of_nat sizeof_ulong))%N ->
  (2 * sizeof_ulong + 1 <= length buf)%nat ->
  forallb lower_hex s = true ->
  parse_hex s = Some v ->
  (hd NUL s = "0"%char -> s = ["0"%char]) ->
  exists buf', utoa_hex v buf = Some buf' /\ c_string buf' = s.
Proof.
  intros Hsz Hv Hbuf Hlow Hval Hlead.
  assert (Hmin : minimal_hex v s).
  { split; [exact Hlow|]. split; [exact Hval|]. split.
    - intros ->. destruct s as [|c s]; [discriminate|].
      destruct (Ascii.eqb_spec c "0"%char) as [->|Hc];
        [apply Hlead; reflexivity|].
      exfalso. cbn [forallb] in Hlow. apply andb_true_iff in Hlow.
      destruct Hlow as [Hlc _].
      unfold parse_hex in Hval. cbn [parse_hex_from] in Hval.
      destruct (hex_value c) as [x|] eqn:Ex; [|discriminate].
      destruct (lower_hex_digit c x Hlc Ex) as (_ & _ & Hz).
      assert (Hx0 : x <> 0%N) by (intros H0; apply Hc, Hz, H0).
      assert (Hge : forall l acc r, (0 < acc)%N ->
                 parse_hex_from acc l = Some r -> (0 < r)%N).
      { induction l as [|y l IHl]; intros acc r Hacc Hr.
        - injection Hr as <-. exact Hacc.
        - cbn [parse_hex_from] in Hr.
          destruct (hex_value y) as [x0|]; [|discriminate].
          apply (IHl (16 * acc + x0)%N r); [lia | exact Hr]. }
      apply Hge in Hval; lia.
    - intros Hne H0. specialize (Hlead H0). subst s.
      cbn in Hval. injection Hval as <-. contradiction. }
  rewrite (minimal_hex_unique v s Hmin).
  assert (Hlen : (length (hex_digits v) <= 2 * sizeof_ulong)%nat).
  { apply hex_digits_length; [lia|]. rewrite <- pow2_bytes_nibbles.
    exact Hv. }
  eexists. split; [apply utoa_hex_spec; [exact Hv | lia]|].
  apply c_string_literal, hex_digits_no_nul.
Qed.

End Dbgu.

(** * Runs on the example devices *)


Lemma ff_round_trip_run :
  exists buf',
    utoa_hex 4 stale 255 (auto_array stale 9) = Some buf' /\
    parse_hex (c_string buf') = Some 255%N /\
    (255%N = 0%N -> c_string buf' = ["0"%char]) /\
    (255%N <> 0%N -> hd NUL (c_string buf') <> "0"%char) /\
    forallb lower_hex (c_string buf') = true.
Proof.
  apply (utoa_hex_round_trip 4 stale 255 (auto_array stale 9));
    [lia | reflexivity | simpl; lia].
Defined.

Lemma toggle_putc_run :
  dbgu_putc (hw_toggle 2) 3 LF [] =
  Done tt [Rd SR 0; Rd SR 0; Rd SR 2; Wr THR 13;
           Rd SR 0; Rd SR 0; Rd SR 2; Wr THR 10] /\
  dbgu_putc (hw_toggle 2) 3 "a" [] =
  Done tt [Rd SR 0; Rd SR 0; Rd SR 2; Wr THR 97].
Proof.
  split.
  - apply (proj1 (dbgu_putc_line_ending (hw_toggle 2) 3 LF [] _) eq_refl).
    exists 2%nat, 2%nat. repeat split; lia || reflexivity.
  - apply (proj1 (proj2 (dbgu_putc_line_ending (hw_toggle 2) 3 "a" [] _))).
    + discriminate.
    + exists 2%nat. repeat split; lia || reflexivity.
Defined.

Lemma tx_live_ready : tx_live hw_ready.
Proof. intros t. exists O. reflexivity. Qed.

Lemma ff_printf_run :
  tiny_printf hw_ready 4 stale 1 (cstr "%x") [ArgUInt 255] [] =
  Done 0 [Rd SR 3; Wr THR 102; Rd SR 3; Wr THR 102].
Proof.
  destruct (tiny_printf_hex_directives hw_ready 4 stale ltac:(lia))
    as (_ & _ & _ & [He _] & _).
  rewrite (He 1%nat []). reflexivity.
Defined.

Lemma unknown_directive_run :
  tiny_printf hw_ready 4 stale 1 (cstr "%q") [] [] =
  Done 0 [Rd SR 3; Wr THR 37; Rd SR 3; Wr THR 113].
Proof.
  destruct (tiny_printf_passthrough hw_ready 4 stale) as (_ & _ & Hq & _).
  unfold tiny_printf, bind.
  change (cstr "%q") with ["%"%char; "q"%char; NUL].
  rewrite Hq by (simpl; intuition discriminate). reflexivity.
Defined.

Lemma string_line_run :
  exists fuel t',
    tiny_printf hw_ready 4 stale fuel (cstr "%s") [ArgStr (Some (cstr "ok
"))] []
    = Done 0 t' /\
    sent t' = [111; 107; 13; 10].
Proof.
  destruct (tiny_printf_string hw_ready 4 stale) as (_ & Hs & _).
  destruct (Hs (cstr "ok
") eq_refl) as (_ & Hsent & _ & Hlive).
  destruct (Hlive tx_live_ready []) as (fuel & t' & H).
  exists fuel, t'. split; [exact H|]. apply (Hsent _ _ _ _ H).
Defined.

Lemma puts_ok_run :
  dbgu_puts hw_ready 1 (Some (cstr "ok")) [] =
  Done tt [Rd SR 3; Wr THR 111; Rd SR 3; Wr THR 107].
Proof.
  destruct (dbgu_puts_sends hw_ready) as (_ & Hp & _).
  rewrite (Hp 1%nat (cstr "ok") [] eq_refl). reflexivity.
Defined.

Lemma getc_ready_run :
  dbgu_getc hw_ready 1 [] = Done "A"%char [Rd SR 3; Rd RHR 0x141].
Proof.
  apply (dbgu_getc_receives hw_ready 1 [] "A"%char).
  exists O, 0x141. repeat split; lia || reflexivity.
Defined.

Lemma dead_device_run :
  dbgu_putc hw_dead 3 "a" [] = Spin [Rd SR 0; Rd SR 0; Rd SR 0] /\
  dbgu_getc hw_dead 2 [] = Spin [Rd SR 0; Rd SR 0].
Proof.
  destruct (busy_wait_termination hw_dead) as (_ & _ & _ & Hp & Hg & _).
  split.
  - apply (Hp 3%nat "a"%char []). intros k _. reflexivity.
  - apply (Hg 2%nat []). intros k _. reflexivity.
Defined.

Lemma widest_uint_run :
  exists ds,
    utoa_hex 4 stale 0xFFFFFFFF (auto_array stale 9) =
    Some (ds ++ NUL :: skipn (S (length ds)) (auto_array stale 9)) /\
    (length ds <= 8)%nat /\
    forallb (fun c => negb (Ascii.eqb c NUL)) ds = true.
Proof.
  destruct (utoa_hex_buffers hw_ready 4 stale ltac:(lia)) as (_ & Hx & _).
  apply (Hx 0xFFFFFFFF%N (auto_array stale 9)); reflexivity.
Defined.

(** The checks of the model are live: a buffer that is one byte short, or a
    value that needs more digits than the temporary array holds, goes
    wrong. *)
Example utoa_hex_short_buffer :
  utoa_hex 4 stale 0xFFFFFFFF (auto_array stale 8) = None.
Proof. reflexivity. Qed.

Example utoa_hex_nine_digits :
  utoa_hex 4 stale 0x100000000 (auto_array stale 16) = None.
Proof. reflexivity. Qed.


Example dbgu_init_wraps :
  dbgu_init 60000000 (2 ^ 28) [] = Fault.
Proof. reflexivity. Qed.

Example tiny_printf_demo_line :
  sent_of (tiny_printf hw_ready 4 stale 1
             (cstr "%%c='%c'  %%s=%s  %%x=%x  %%p=%p")
             [ArgInt 65; ArgStr (Some (cstr "A")); ArgUInt 65; ArgPtr 65] [])
  = Some (map code (list_ascii_of_string "%c='A'  %s=A  %x=41  %p=0x41")).
Proof. reflexivity. Qed.

(** * Runs for the further properties *)

Lemma wrapped_baud_run :
  dbgu_init 60000000 (2 ^ 28 + 115200) [] =
  Done tt [Wr CR 12; Wr MR 2048;
           Wr BRGR (60000000 / (16 * ((2 ^ 28 + 115200) mod 2 ^ 28)));
           Wr CR 80].
Proof.
  apply (proj1 (proj2 (dbgu_init_unsigned_arithmetic
                         60000000 (2 ^ 28 + 115200) []
                         ltac:(lia) ltac:(lia)))).
  vm_compute. discriminate.
Defined.

Lemma default_divisor_run :
  exists q,
    dbgu_init 60000000 115200 [] =
      Done tt [Wr CR 12; Wr MR 2048; Wr BRGR q; Wr CR 80] /\
    16 * 115200 * q <= 60000000 < 16 * 115200 * (q + 1) /\
    (q = 0 <-> 60000000 < 16 * 115200).
Proof.
  apply (dbgu_init_divisor_rounds_down 60000000 115200 []); lia.
Defined.

Lemma banner_wire_run :
  sent [Rd SR 3; Wr THR 82; Rd SR 3; Wr THR 101; Rd SR 3; Wr THR 97;
        Rd SR 3; Wr THR 100; Rd SR 3; Wr THR 121; Rd SR 3; Wr THR 13;
        Rd SR 3; Wr THR 13; Rd SR 3; Wr THR 10] =
  sent [] ++ crlf (list_ascii_of_string "Ready") ++ [13; 13; 10].
Proof.
  apply (proj2 (dbgu_puts_wire_bytes hw_ready 1 banner [] _ eq_refl)
           (list_ascii_of_string "Ready")).
  reflexivity.
Defined.

Lemma mixed_format_run :
  tiny_printf hw_ready 4 stale 1 (cstr "%c=%x") [ArgInt 321; ArgUInt 321] [] =
  Done 0 [Rd SR 3; Wr THR 65; Rd SR 3; Wr THR 61; Rd SR 3; Wr THR 49;
          Rd SR 3; Wr THR 52; Rd SR 3; Wr THR 49].
Proof.
  destruct (tiny_printf_renders hw_ready 4 stale (cstr "%c=%x")
              [ArgInt 321; ArgUInt 321] (list_ascii_of_string "A=141")
              ltac:(lia) eq_refl) as [He _].
  rewrite (He 1%nat []). reflexivity.
Defined.

Lemma surplus_arguments_run :
  tiny_printf hw_ready 4 stale 1 (cstr "%c") ([ArgInt 65] ++ [ArgUInt 7]) [] =
  tiny_printf hw_ready 4 stale 1 (cstr "%c") [ArgInt 65] [].
Proof.
  apply (tiny_printf_surplus_arguments hw_ready 4 stale (cstr "%c")
           [ArgInt 65] [ArgUInt 7] ["A"%char]); [lia | reflexivity].
Defined.

Lemma plain_format_run :
  tiny_printf hw_ready 4 stale 1 (cstr "ok") [ArgInt 65] [] =
  (dbgu_puts hw_ready 1 (Some (cstr "ok")) ;; ret 0) [].
Proof.
  apply (tiny_printf_plain_is_puts hw_ready 4 stale 1 (cstr "ok") [ArgInt 65]).
  reflexivity.
Defined.

Lemma busy_transmitter_run :
  exists seg,
    [Rd SR 0; Rd SR 0; Rd SR 2; Wr THR 97;
     Rd SR 0; Rd SR 0; Rd SR 2; Wr THR 98] = [] ++ seg /\
    forallb tx_event seg = true /\ guarded None seg = true.
Proof.
  apply (proj1 (output_touches_only_transmitter (hw_toggle 2) 4 stale 3 [] _)
           (cstr "ab") []).
  reflexivity.
Defined.

Lemma echo_run :
  main_loop hw_ready 4 stale 1 1 [] =
  (c <- dbgu_getc hw_ready 1 ;;
   putcs hw_ready 1 (echo c) ;; main_loop hw_ready 4 stale 1 0) [].
Proof.
  apply (main_loop_echoes hw_ready 4 stale 1 0 []). lia.
Defined.

Lemma main_run :
  exists seg,
    main hw_ready 4 stale 60000000 115200 1 1 [] =
      Spin ([] ++ [Wr CR 12; Wr MR 2048; Wr BRGR (60000000 / (16 * 115200));
                   Wr CR 80] ++ seg) /\
    forallb io_event seg = true /\
    guarded None seg = true.
Proof.
  apply (main_runs_forever hw_ready 4 stale 60000000 115200 1 1 []); lia.
Defined.

Lemma room_run :
  (utoa_hex 4 stale 0xFFFFFFFF (auto_array stale 9) <> None <->
   (ndigits 0xFFFFFFFF < length (auto_array stale 9))%nat) /\
  (forall buf',
      utoa_hex 4 stale 0xFFFFFFFF (auto_array stale 9) = Some buf' ->
      length (c_string buf') = ndigits 0xFFFFFFFF).
Proof.
  apply (utoa_hex_room 4 stale 0xFFFFFFFF (auto_array stale 9)). reflexivity.
Defined.

Lemma numeral_run :
  exists buf',
    utoa_hex 4 stale 0xBEEF (auto_array stale 9) = Some buf' /\
    c_string buf' = list_ascii_of_string "beef".
Proof.
  apply (utoa_hex_of_parse_hex 4 stale (list_ascii_of_string "beef") 0xBEEF
           (auto_array stale 9));
    [lia | reflexivity | simpl; lia | reflexivity | reflexivity
    | discriminate].
Defined.

(** What [main] sends on a device that is always ready, for one received
    character (0x41): the banner and the two lines, each ending in two
    carriage returns and a line feed. *)
Example main_first_turn :
  sent_of (main hw_ready 4 stale MCK_default BAUD_default 1 1 []) =
  Some (map code
          (list_ascii_of_string "Ready" ++ [CReturn; CReturn; LF] ++
           list_ascii_of_string "Received character: 'A'" ++
           [CReturn; CReturn; LF] ++
           list_ascii_of_string "%c='A'  %s=" ++ [DQUOTE; "A"%char; DQUOTE] ++
           list_ascii_of_string "  %x=41  %p=0x41" ++
           [CReturn; CReturn; LF])).
Proof. reflexivity. Qed.
